(** * Coddle: the CDL Grids game (pages/index.tsx)

    A shallow embedding of the page component of the game: the condition
    evaluator [isCorrectMatch], the guess handler of a [GuessCell], the
    label derivation of [Home] and the event-driven state machine that the
    React components form together. *)

From Stdlib Require Import PrimFloat.
From stdpp Require Import gmap strings list fin_maps.

Local Open Scope string_scope.
#[local] Set Warnings "-inexact-float".

(** ** Data model *)

(** [interface Player].  The [teams], [roles] and [maps] arrays are kept as
    lists; [kd] is a JavaScript number, that is an IEEE 754 binary64, which
    is what Rocq's primitive [float] is. *)
Record Player : Type := mkPlayer {
  name : string;
  image : string;
  teams : list string;
  roles : list string;
  kd : float;
  maps : list string
}.

(** [Array.prototype.includes] on an array of strings: a left-to-right
    search with string equality. *)
Definition includes (l : list string) (x : string) : bool :=
  existsb (String.eqb x) l.

(** The numeric literal [1.1] of the source: the binary64 nearest to 11/10,
    written in hexadecimal so that the constant is exact. *)
Definition kd_threshold : float := 0x1.199999999999ap+0%float.

(** [p.kd > 1.1]: IEEE comparison, false when [p.kd] is NaN. *)
Definition float_gt (x y : float) : bool := PrimFloat.ltb y x.

(** ** Condition evaluator *)

(** [isCorrectMatch].  The TypeScript parameter has type [Player], but the
    body guards against a falsy argument, so the embedding takes an
    [option Player] ([None] is [null]).  [!condition] holds exactly for the
    empty string. *)
Definition isCorrectMatch (p : option Player) (condition : string) : bool :=
  match p with
  | None => false (* !p *)
  | Some p =>
    if String.eqb condition "" then false (* !condition *)
    else if String.eqb condition "Played for OpTic" then includes (teams p) "OpTic"
    else if String.eqb condition "Played for FaZe" then includes (teams p) "FaZe"
    else if String.eqb condition "Used AR on Fortress" then
      includes (roles p) "AR" && includes (maps p) "Fortress"
    else if String.eqb condition "K/D over 1.1" then float_gt (kd p) kd_threshold
    else if String.eqb condition "Played SMG on Embassy" then
      includes (roles p) "SMG" && includes (maps p) "Embassy"
    else if String.eqb condition "Played on Hotel" then includes (maps p) "Hotel"
    else if String.eqb condition "Flex Role on Expo" then
      includes (roles p) "Flex" && includes (maps p) "Expo"
    else if String.eqb condition "Used SMG for NYSL" then
      includes (teams p) "NYSL" && includes (roles p) "SMG"
    else if String.eqb condition "Played with Scump" then
      includes (teams p) "OpTic" && negb (String.eqb (name p) "Scump")
    else false
  end.

(** The nine condition phrases that [isCorrectMatch] recognises. *)
Definition knownConditions : list string :=
  [ "Played for OpTic"; "Played for FaZe"; "Used AR on Fortress";
    "K/D over 1.1"; "Played SMG on Embassy"; "Played on Hotel";
    "Flex Role on Expo"; "Used SMG for NYSL"; "Played with Scump" ].

(** The documented rules.  The nine labels as a type, the phrase of each,
    and the rule the specification gives for it, stated on the attributes
    of the player; [isCorrectMatch] is compared with it below. *)
Inductive Condition : Type :=
| PlayedForOpTic | PlayedForFaZe | UsedAROnFortress | KDOver
| PlayedSMGOnEmbassy | PlayedOnHotel | FlexRoleOnExpo | UsedSMGForNYSL
| PlayedWithScump.

Definition label (c : Condition) : string :=
  match c with
  | PlayedForOpTic => "Played for OpTic"
  | PlayedForFaZe => "Played for FaZe"
  | UsedAROnFortress => "Used AR on Fortress"
  | KDOver => "K/D over 1.1"
  | PlayedSMGOnEmbassy => "Played SMG on Embassy"
  | PlayedOnHotel => "Played on Hotel"
  | FlexRoleOnExpo => "Flex Role on Expo"
  | UsedSMGForNYSL => "Used SMG for NYSL"
  | PlayedWithScump => "Played with Scump"
  end.

Definition documentedRule (p : Player) (c : Condition) : Prop :=
  match c with
  | PlayedForOpTic => In "OpTic" (teams p)
  | PlayedForFaZe => In "FaZe" (teams p)
  | UsedAROnFortress => In "AR" (roles p) /\ In "Fortress" (maps p)
  | KDOver => PrimFloat.ltb kd_threshold (kd p) = true
  | PlayedSMGOnEmbassy => In "SMG" (roles p) /\ In "Embassy" (maps p)
  | PlayedOnHotel => In "Hotel" (maps p)
  | FlexRoleOnExpo => In "Flex" (roles p) /\ In "Expo" (maps p)
  | UsedSMGForNYSL => In "NYSL" (teams p) /\ In "SMG" (roles p)
  | PlayedWithScump => In "OpTic" (teams p) /\ name p <> "Scump"
  end.

(** ** Component state *)

(** [mode] of [Home]: ['easy' | 'hard'] ([null] is [None]). *)
Inductive Mode : Type := easy | hard.

(** [result] of a [GuessCell]: ['correct' | 'wrong'] ([null] is [None]). *)
Inductive Outcome : Type := correct | wrong.

Global Instance Mode_eq_dec : EqDecision Mode.
Proof. solve_decision. Defined.

Global Instance Outcome_eq_dec : EqDecision Outcome.
Proof. solve_decision. Defined.

(** The three [useState] cells of one [GuessCell]. *)
Record CellState : Type := mkCell {
  guess : string;
  result : option Outcome;
  player : option Player
}.

(** The initial values handed to [useState] in [GuessCell]. *)
Definition initCell : CellState := mkCell "" None None.

Definition setGuess (text : string) (c : CellState) : CellState :=
  mkCell text (result c) (player c).
Definition setResult (r : option Outcome) (c : CellState) : CellState :=
  mkCell (guess c) r (player c).
Definition setPlayer (p : option Player) (c : CellState) : CellState :=
  mkCell (guess c) (result c) p.

(** The four [useState] cells of [Home].  [strikes] only ever holds small
    non-negative integers, on which the JavaScript [s + 1] is exact. *)
Record HomeState : Type := mkHome {
  players : list Player;
  categories : list string;
  mode : option Mode;
  strikes : nat
}.

Definition initHome : HomeState := mkHome [] [] None 0.

Definition setPlayers (ps : list Player) (h : HomeState) : HomeState :=
  mkHome ps (categories h) (mode h) (strikes h).
Definition setCategories (cs : list string) (h : HomeState) : HomeState :=
  mkHome (players h) cs (mode h) (strikes h).
Definition setMode (m : option Mode) (h : HomeState) : HomeState :=
  mkHome (players h) (categories h) m (strikes h).
Definition setStrikes (f : nat -> nat) (h : HomeState) : HomeState :=
  mkHome (players h) (categories h) (mode h) (f (strikes h)).

(** [resetGame]: [setMode(null); setStrikes(0)]. *)
Definition resetGame (h : HomeState) : HomeState :=
  setStrikes (fun _ => 0) (setMode None h).

(** [handleStrike]: [setStrikes((s) => s + 1)]. *)
Definition handleStrike (h : HomeState) : HomeState :=
  setStrikes (fun s => s + 1) h.

(** ** Label derivation *)

(** The clamping of a relative index done by [Array.prototype.slice]: a
    negative index counts from the end, and the result lies in [0..len]. *)
Definition clampIndex (len rel : Z) : Z :=
  if (rel <? 0)%Z then Z.max (len + rel) 0 else Z.min rel len.

(** [Array.prototype.slice(start, end)] for integer arguments: the elements
    at the clamped indices [k], ..., [final - 1], none when [final <= k]. *)
Definition slice {A : Type} (l : list A) (start stop : Z) : list A :=
  let len := Z.of_nat (length l) in
  let k := clampIndex len start in
  let final := clampIndex len stop in
  take (Z.to_nat (final - k)) (drop (Z.to_nat k) l).

(** [const size = mode === 'easy' ? 3 : 5]. *)
Definition size (h : HomeState) : Z :=
  if decide (mode h = Some easy) then 3%Z else 5%Z.

(** [const rows = categories.slice(0, size)]. *)
Definition rows (h : HomeState) : list string :=
  slice (categories h) 0 (size h).

(** [const cols = categories.slice(size, size * 2)]. *)
Definition cols (h : HomeState) : list string :=
  slice (categories h) (size h) (size h * 2).

(** The grid dimension N of the specification: 3 for easy, 5 for hard. *)
Definition gridDimension (m : Mode) : nat :=
  match m with easy => 3 | hard => 5 end.

(** ** What is on screen *)

(** The three alternatives of the JSX of [Home]: the difficulty screen, or
    the header with either the end-of-game message or the grid. *)
Inductive View : Type :=
| DifficultyScreen
| GameOverMessage (m : Mode) (strikes : nat)
| GameGrid (m : Mode) (strikes : nat) (players : list Player) (rows cols : list string).

Definition render (h : HomeState) : View :=
  match mode h with
  | Some m =>
      if (3 <=? strikes h)%nat then GameOverMessage m (strikes h)
      else GameGrid m (strikes h) (players h) (rows h) (cols h)
  | None => DifficultyScreen
  end.

(** The JSX of one [GuessCell]: the input with its Submit button while
    [player] is null, the [GuessCard] afterwards. *)
Inductive CellView : Type :=
| GuessInput (value : string)
| GuessCard (p : Player) (isCorrect : bool).

Definition renderCell (c : CellState) : CellView :=
  match player c with
  | None => GuessInput (guess c)
  | Some p => GuessCard p (bool_decide (result c = Some correct))
  end.

(** The positions [(i, j)] of the [GuessCell] elements that [GameGrid]
    creates: one per row label and column label, and none unless [Home]
    renders the grid. *)
Definition mounted (h : HomeState) : list (nat * nat) :=
  match render h with
  | GameGrid _ _ _ rs cs => cprod (seq 0 (length rs)) (seq 0 (length cs))
  | _ => []
  end.

(** React keeps the state of a [GuessCell] while an element stays at its
    position, creates fresh state for a new element and drops the state of
    an element that is no longer rendered. *)
Definition reconcile (h : HomeState) (old : gmap (nat * nat) CellState)
  : gmap (nat * nat) CellState :=
  list_to_map ((fun pos => (pos, default initCell (old !! pos))) <$> mounted h).

(** ** The page as a state machine *)

(** The component tree: the state of [Home], the state of every mounted
    [GuessCell], and the number of [fetchPlayers] and [fetchCategories]
    promises that are still to resolve. *)
Record App : Type := mkApp {
  home : HomeState;
  cells : gmap (nat * nat) CellState;
  pendingPlayers : nat;
  pendingCategories : nat
}.

Definition initApp : App := mkApp initHome ∅ 0 0.

(** The commit that follows an event handler: the tree is rendered again
    from the new state of [Home]. *)
Definition commit (a : App) : App :=
  mkApp (home a) (reconcile (home a) (cells a))
        (pendingPlayers a) (pendingCategories a).

(** [useEffect(() => { if (mode) { fetchPlayers()...; fetchCategories()... } },
    [mode])]: runs when [mode] differs from the previous render. *)
Definition modeEffect (prev : option Mode) (a : App) : App :=
  if decide (mode (home a) = prev) then a
  else match mode (home a) with
       | Some _ => mkApp (home a) (cells a)
                         (pendingPlayers a + 1) (pendingCategories a + 1)
       | None => a
       end.

(** A handler of [Home] that replaces its state by [f] of it, followed by
    the commit and by the effect on [mode]. *)
Definition update (f : HomeState -> HomeState) (a : App) : App :=
  modeEffect (mode (home a))
    (commit (mkApp (f (home a)) (cells a) (pendingPlayers a) (pendingCategories a))).

(** What can happen to the page: the clicks and keystrokes of the user, and
    the resolution of a pending fetch with the list it delivers.  A fetch
    that fails calls no setter; it is a fetch that stays pending. *)
Inductive Event : Type :=
| ChooseDifficulty (m : Mode)
| ClickNewGame
| ChangeGuess (i j : nat) (text : string)
| ClickSubmit (i j : nat)
| PlayersFetched (ps : list Player)
| CategoriesFetched (cs : list string).

Definition isUserAction (e : Event) : bool :=
  match e with
  | PlayersFetched _ | CategoriesFetched _ => false
  | _ => true
  end.

Section WithToLowerCase.

(** [String.prototype.toLowerCase].  Nothing below depends on how it maps
    characters. *)
Variable toLowerCase : string -> string.

(** [handleGuess] of a [GuessCell] with props [row], [col], [players] and
    [onStrike], run on the state [c] of the cell; [onStrike] acts on the
    state of [Home]. *)
Definition handleGuess (row col : string) (players : list Player)
    (onStrike : HomeState -> HomeState)
    (c : CellState) (h : HomeState) : CellState * HomeState :=
  match find (fun p => String.eqb (toLowerCase (name p)) (toLowerCase (guess c)))
             players with
  | None => (c, h)
  | Some found =>
      let valid := isCorrectMatch (Some found) row && isCorrectMatch (Some found) col in
      let c := setResult (Some (if valid then correct else wrong)) c in
      let c := setPlayer (Some found) c in
      (c, if negb valid then onStrike h else h)
  end.

(** One event.  [None] means that the control the event needs is not on
    screen (or that no fetch is pending).  Each handler runs to its end and
    the tree is committed before the next event; the handlers of a cell do
    not write [mode], so the effect of [Home] does not run after them. *)
Definition step (a : App) (e : Event) : option App :=
  match e with
  | ChooseDifficulty m =>
      match render (home a) with
      | DifficultyScreen => Some (update (setMode (Some m)) a)
      | _ => None
      end
  | ClickNewGame =>
      match render (home a) with
      | DifficultyScreen => None
      | _ => Some (update resetGame a)
      end
  | ChangeGuess i j text =>
      match cells a !! (i, j) with
      | Some c =>
          match renderCell c with
          | GuessInput _ =>
              Some (commit (mkApp (home a) (<[(i, j) := setGuess text c]> (cells a))
                                  (pendingPlayers a) (pendingCategories a)))
          | GuessCard _ _ => None
          end
      | None => None
      end
  | ClickSubmit i j =>
      match cells a !! (i, j), rows (home a) !! i, cols (home a) !! j with
      | Some c, Some row, Some col =>
          match renderCell c with
          | GuessInput _ =>
              let '(c', h') :=
                handleGuess row col (players (home a)) handleStrike c (home a) in
              Some (commit (mkApp h' (<[(i, j) := c']> (cells a))
                                  (pendingPlayers a) (pendingCategories a)))
          | GuessCard _ _ => None
          end
      | _, _, _ => None
      end
  | PlayersFetched ps =>
      match pendingPlayers a with
      | S n => Some (update (setPlayers ps)
                       (mkApp (home a) (cells a) n (pendingCategories a)))
      | O => None
      end
  | CategoriesFetched cs =>
      match pendingCategories a with
      | S n => Some (update (setCategories cs)
                       (mkApp (home a) (cells a) (pendingPlayers a) n))
      | O => None
      end
  end.

(** What a successful step did: the new state of [Home], and the cell
    states [old] from which the new tree was reconciled. *)
Definition stepped (a : App) (e : Event) (a' : App)
    (old : gmap (nat * nat) CellState) : Prop :=
  match e with
  | ChooseDifficulty m =>
      mode (home a) = None /\ home a' = setMode (Some m) (home a) /\ old = cells a
  | ClickNewGame =>
      mode (home a) <> None /\ home a' = resetGame (home a) /\ old = cells a
  | ChangeGuess i j text =>
      exists c, cells a !! (i, j) = Some c /\ player c = None /\
                home a' = home a /\ old = <[(i, j) := setGuess text c]> (cells a)
  | ClickSubmit i j =>
      exists c row col,
        cells a !! (i, j) = Some c /\ player c = None /\
        rows (home a) !! i = Some row /\ cols (home a) !! j = Some col /\
        home a' =
          (handleGuess row col (players (home a)) handleStrike c (home a)).2 /\
        old = <[(i, j) :=
                 (handleGuess row col (players (home a)) handleStrike c
                    (home a)).1]> (cells a)
  | PlayersFetched ps =>
      0 < pendingPlayers a /\ home a' = setPlayers ps (home a) /\ old = cells a
  | CategoriesFetched cs =>
      0 < pendingCategories a /\ home a' = setCategories cs (home a) /\ old = cells a
  end.

(** A run of events, stopping with [None] at the first one that cannot
    happen. *)
Fixpoint run (a : App) (es : list Event) : option App :=
  match es with
  | [] => Some a
  | e :: es' =>
      match step a e with
      | Some a' => run a' es'
      | None => None
      end
  end.

(** The states the page can be in. *)
Inductive reachable : App -> Prop :=
| reachable_init : reachable initApp
| reachable_step a e a' : reachable a -> step a e = Some a' -> reachable a'.

End WithToLowerCase.

(** What holds of every state the page can be in: the cells that have state
    are the ones on screen, there are at most three strikes, and none while
    no difficulty is chosen. *)
Definition invariant (a : App) : Prop :=
  (forall pos, is_Some (cells a !! pos) <-> pos ∈ mounted (home a)) /\
  strikes (home a) <= 3 /\
  (mode (home a) = None -> strikes (home a) = 0).

(** The player satisfies the row condition and the column condition. *)
Definition bothHold (p : Player) (row col : string) : Prop :=
  isCorrectMatch (Some p) row = true /\ isCorrectMatch (Some p) col = true.


(** A lowering of the ASCII letters, to run the definitions on examples. *)
Definition lowerChar (ch : Ascii.ascii) : Ascii.ascii :=
  let n := Ascii.nat_of_ascii ch in
  if ((65 <=? n) && (n <=? 90))%nat then Ascii.ascii_of_nat (n + 32) else ch.

Fixpoint asciiLower (s : string) : string :=
  match s with
  | EmptyString => EmptyString
  | String ch s' => String (lowerChar ch) (asciiLower s')
  end.

(** A small roster and category list for the examples. *)
Definition scump : Player :=
  mkPlayer "Scump" "/scump.png" ["OpTic"] ["SMG"; "AR"] 1.2%float ["Hotel"; "Fortress"].
Definition simp : Player :=
  mkPlayer "Simp" "/simp.png" ["FaZe"] ["SMG"] 1.0%float ["Embassy"].

Definition sampleCategories : list string :=
  [ "Played for OpTic"; "Played for FaZe"; "Used AR on Fortress";
    "K/D over 1.1"; "Played SMG on Embassy"; "Played on Hotel";
    "Flex Role on Expo"; "Used SMG for NYSL" ].

(** An easy game in which both lists have arrived. *)
Definition startEasy : list Event :=
  [ ChooseDifficulty easy; PlayersFetched [scump; simp];
    CategoriesFetched sampleCategories ].

(** The state after the events [es], from the first render of the page. *)
Definition after (es : list Event) : App :=
  default initApp (run asciiLower initApp es).

(** ** The markup of the grid *)

(** The children of the grid [div] of [GameGrid], in document order (a
    fragment contributes its children): the empty corner, a header per
    column, and per row its header followed by one [GuessCell] per column
    with its [key] and its [row] and [col] props. *)
Inductive GridElement : Type :=
| Corner
| ColumnHeader (key : nat) (c : string)
| RowHeader (i : nat) (r : string)
| Cell (i j : nat) (row col : string).

Definition GameGridChildren (rows cols : list string) : list GridElement :=
  Corner :: (imap ColumnHeader cols ++
             mjoin (imap (fun i r => RowHeader i r :: imap (fun j c => Cell i j r c) cols)
                         rows))%list.

(** [gridTemplateColumns: repeat(cols.length + 1, ...)]: the number of
    columns of the CSS grid. *)
Definition gridTemplateColumns (cols : list string) : nat := length cols + 1.

Definition cellKey (e : GridElement) : option (nat * nat) :=
  match e with
  | Cell i j _ _ => Some (i, j)
  | _ => None
  end.

(** ** Notions used to state properties *)

(** Two arrays with the same members, whatever the order and the number of
    occurrences. *)
Definition sameMembers (l k : list string) : Prop :=
  forall x, In x l <-> In x k.

(** The number of cells on screen that show a wrong guess. *)
Definition wrongCards (a : App) : nat :=
  base.size (filter (fun kc : nat * nat * CellState => result kc.2 = Some wrong) (cells a)).

(** The number of events of a run that satisfy [f]. *)
Definition countEvents (f : Event -> bool) (es : list Event) : nat :=
  length (List.filter f es).

Definition isChooseDifficulty (e : Event) : bool :=
  match e with ChooseDifficulty _ => true | _ => false end.
Definition isClickSubmit (e : Event) : bool :=
  match e with ClickSubmit _ _ => true | _ => false end.
Definition isPlayersFetched (e : Event) : bool :=
  match e with PlayersFetched _ => true | _ => false end.
Definition isCategoriesFetched (e : Event) : bool :=
  match e with CategoriesFetched _ => true | _ => false end.

Section CellInvariant.

Variable toLowerCase : string -> string.

(** A cell is either untouched by a resolution ([player] and [result] both
    null) or resolved: it has an outcome, and the text in it is the name of
    its player up to case. *)
Definition cellConsistent (c : CellState) : Prop :=
  match player c with
  | None => result c = None
  | Some p =>
      (result c = Some correct \/ result c = Some wrong) /\
      toLowerCase (name p) = toLowerCase (guess c)
  end.

End CellInvariant.

(** ** The evaluator fails closed *)

Ltac case_label c :=
  repeat match goal with
  | |- context [String.eqb c ?l] =>
      destruct (String.eqb_spec c l) as [->|?]
  end.

(** C4: [isCorrectMatch] is total (every call yields a boolean) and it
    yields [false] for a null player, for the empty label and for every
    label outside the nine known condition phrases. *)
Theorem isCorrectMatch_fails_closed (p : option Player) (condition : string) :
  (exists b : bool, isCorrectMatch p condition = b) /\
  (p = None -> isCorrectMatch p condition = false) /\
  (condition = "" -> isCorrectMatch p condition = false) /\
  (~ In condition knownConditions -> isCorrectMatch p condition = false).
Proof.
  split; [eauto|].
  split; [intros ->; reflexivity|].
  split.
  - intros ->. destruct p; reflexivity.
  - intros Hnot. destruct p as [q|]; [|reflexivity].
    unfold isCorrectMatch. case_label condition; try reflexivity;
      exfalso; apply Hnot; unfold knownConditions; simpl; tauto.
Qed.

Lemma isCorrectMatch_fails_closed_witness :
  isCorrectMatch None "" = false /\
  isCorrectMatch (Some (mkPlayer "Scump" "" ["OpTic"] ["SMG"] 1.5%float ["Hotel"]))
                 "Played for Optic" = false.
Proof.
  split.
  - destruct (isCorrectMatch_fails_closed None "") as (_ & Hnull & _).
    apply Hnull. reflexivity.
  - destruct (isCorrectMatch_fails_closed
                (Some (mkPlayer "Scump" "" ["OpTic"] ["SMG"] 1.5%float ["Hotel"]))
                "Played for Optic") as (_ & _ & _ & Hunknown).
    apply Hunknown. unfold knownConditions. simpl.
    intros H. repeat destruct H as [H|H]; try discriminate H. exact H.
Defined.

(** ** The evaluator implements the documented rules *)

Lemma includes_In (l : list string) (x : string) :
  includes l x = true <-> In x l.
Proof.
  unfold includes. rewrite existsb_exists. split.
  - intros (y & Hy & Heq). apply String.eqb_eq in Heq. now subst y.
  - intros Hx. exists x. split; [exact Hx | apply String.eqb_refl].
Qed.

Lemma knownConditions_labels :
  knownConditions =
  label <$> [ PlayedForOpTic; PlayedForFaZe; UsedAROnFortress; KDOver;
              PlayedSMGOnEmbassy; PlayedOnHotel; FlexRoleOnExpo;
              UsedSMGForNYSL; PlayedWithScump ].
Proof. reflexivity. Qed.

(** C1: for every player and each of the nine condition labels,
    [isCorrectMatch] answers true exactly when the player satisfies the
    documented rule of the label; for "Played with Scump" that is: the
    teams include OpTic and the player is not named Scump. *)
Theorem isCorrectMatch_documented_rules (p : Player) (c : Condition) :
  isCorrectMatch (Some p) (label c) = true <-> documentedRule p c.
Proof.
  destruct c; cbn [label documentedRule]; unfold isCorrectMatch, float_gt; cbn;
    rewrite ?andb_true_iff, ?includes_In, ?negb_true_iff, ?String.eqb_neq;
    reflexivity.
Qed.

Example scump_excluded_from_played_with_scump :
  isCorrectMatch (Some (mkPlayer "Scump" "" ["OpTic"] ["SMG"] 1.2%float ["Hotel"]))
                 "Played with Scump" = false.
Proof. reflexivity. Qed.

Example kd_threshold_is_strict :
  isCorrectMatch (Some (mkPlayer "x" "" [] [] 1.1%float [])) "K/D over 1.1" = false /\
  isCorrectMatch (Some (mkPlayer "x" "" [] [] 0x1.199999999999bp+0%float []))
                 "K/D over 1.1" = true /\
  isCorrectMatch (Some (mkPlayer "x" "" [] [] PrimFloat.nan [])) "K/D over 1.1" = false.
Proof. repeat split; vm_compute; reflexivity. Qed.

(** ** Label derivation *)

Lemma slice_from_0 {A : Type} (l : list A) (n : nat) :
  slice l 0 (Z.of_nat n) = take n l.
Proof.
  unfold slice, clampIndex. cbn [Z.ltb Z.compare].
  destruct (Z.ltb_spec (Z.of_nat n) 0) as [?|_]; [lia|].
  rewrite (Z.min_l 0) by lia. change (Z.to_nat 0) with 0. rewrite drop_0, Z.sub_0_r.
  destruct (Z.min_spec (Z.of_nat n) (Z.of_nat (length l))) as [[? ->]|[? ->]].
  - now rewrite Nat2Z.id.
  - rewrite Nat2Z.id. rewrite !take_ge; [reflexivity| lia | lia].
Qed.

Lemma slice_next {A : Type} (l : list A) (n : nat) :
  slice l (Z.of_nat n) (Z.of_nat n * 2) = take n (drop n l).
Proof.
  unfold slice, clampIndex.
  destruct (Z.ltb_spec (Z.of_nat n) 0) as [?|_]; [lia|].
  destruct (Z.ltb_spec (Z.of_nat n * 2) 0) as [?|_]; [lia|].
  destruct (Z.min_spec (Z.of_nat n) (Z.of_nat (length l))) as [[? ->]|[? ->]].
  - rewrite Nat2Z.id.
    destruct (Z.min_spec (Z.of_nat n * 2) (Z.of_nat (length l))) as [[? ->]|[? ->]].
    + f_equal. lia.
    + rewrite !take_ge; [reflexivity | rewrite length_drop; lia ..].
  - rewrite Z.min_r by lia. rewrite Z.sub_diag, Nat2Z.id.
    change (Z.to_nat 0) with 0. rewrite take_0.
    rewrite (drop_ge l n) by lia. now rewrite take_nil.
Qed.

Lemma size_gridDimension (h : HomeState) (m : Mode) :
  mode h = Some m -> size h = Z.of_nat (gridDimension m).
Proof.
  intros Hm. unfold size. rewrite Hm.
  destruct m; case_decide; try congruence; reflexivity.
Qed.

Lemma rows_take (h : HomeState) (m : Mode) :
  mode h = Some m -> rows h = take (gridDimension m) (categories h).
Proof.
  intros Hm. unfold rows. rewrite (size_gridDimension h m Hm). apply slice_from_0.
Qed.

Lemma cols_take_drop (h : HomeState) (m : Mode) :
  mode h = Some m ->
  cols h = take (gridDimension m) (drop (gridDimension m) (categories h)).
Proof.
  intros Hm. unfold cols. rewrite (size_gridDimension h m Hm). apply slice_next.
Qed.

(** C5: with N = 3 for easy and N = 5 for hard, the row labels are the first
    N categories and the column labels the next N, those at indices N to
    2N-1; of eight categories in easy mode the rows are the ones at indices
    0..2, the columns the ones at 3..5, and the one at index 6 is in
    neither. *)
Theorem deriveLabels_slice (h : HomeState) (m : Mode) :
  mode h = Some m ->
  let N := gridDimension m in
  rows h = take N (categories h) /\
  cols h = take N (drop N (categories h)) /\
  (forall i, rows h !! i = if decide (i < N) then categories h !! i else None) /\
  (forall j, cols h !! j = if decide (j < N) then categories h !! (N + j) else None) /\
  (forall c0 c1 c2 c3 c4 c5 c6 c7,
      m = easy -> categories h = [c0; c1; c2; c3; c4; c5; c6; c7] ->
      rows h = [c0; c1; c2] /\ cols h = [c3; c4; c5]).
Proof.
  intros Hm N. pose proof (rows_take h m Hm) as Hr.
  pose proof (cols_take_drop h m Hm) as Hc. fold N in Hr, Hc.
  split; [exact Hr|]. split; [exact Hc|]. split; [|split].
  - intros i. rewrite Hr. case_decide.
    + now apply lookup_take_lt.
    + apply lookup_take_ge. lia.
  - intros j. rewrite Hc. case_decide.
    + rewrite lookup_take_lt by assumption. apply lookup_drop.
    + apply lookup_take_ge. lia.
  - intros c0 c1 c2 c3 c4 c5 c6 c7 -> Hcat. rewrite Hr, Hc, Hcat. split; reflexivity.
Qed.

Lemma deriveLabels_slice_witness :
  let h := mkHome [] ["a"; "b"; "c"; "d"; "e"; "f"; "g"; "h"] (Some easy) 0 in
  rows h = ["a"; "b"; "c"] /\ cols h = ["d"; "e"; "f"].
Proof.
  intros h.
  destruct (deriveLabels_slice h easy eq_refl) as (_ & _ & _ & _ & H8).
  apply (H8 "a" "b" "c" "d" "e" "f" "g" "h"); reflexivity.
Defined.

(** ** The grid and the mounted cells *)

Lemma elem_of_mounted (h : HomeState) (i j : nat) :
  (i, j) ∈ mounted h <->
  mode h <> None /\ strikes h < 3 /\ i < length (rows h) /\ j < length (cols h).
Proof.
  unfold mounted, render. destruct (mode h) as [m|].
  - destruct (Nat.leb_spec 3 (strikes h)) as [Hge|Hlt].
    + rewrite elem_of_nil. split; [tauto | lia].
    + rewrite list_elem_of_cprod, !elem_of_seq. cbn [fst snd].
      split; [intros [? ?]; repeat split; (congruence || lia) | lia].
  - rewrite elem_of_nil. split; [tauto | intros [Hm _]; congruence].
Qed.

Lemma lookup_list_to_map_fun {V : Type} (f : nat * nat -> V)
    (l : list (nat * nat)) (pos : nat * nat) :
  (list_to_map ((fun k => (k, f k)) <$> l) : gmap (nat * nat) V) !! pos =
  if decide (pos ∈ l) then Some (f pos) else None.
Proof.
  induction l as [|k l IH].
  - rewrite decide_False by apply not_elem_of_nil. apply lookup_empty.
  - rewrite fmap_cons, list_to_map_cons. cbn [fst snd].
    destruct (decide (k = pos)) as [->|Hne].
    + rewrite lookup_insert_eq, decide_True; [reflexivity | left].
    + rewrite lookup_insert_ne by exact Hne. rewrite IH.
      destruct (decide (pos ∈ l)) as [Hin|Hout].
      * rewrite decide_True; [reflexivity | now right].
      * rewrite decide_False; [reflexivity|].
        intros [->|Hin]%elem_of_cons; [congruence | tauto].
Qed.

Lemma lookup_reconcile (h : HomeState) (old : gmap (nat * nat) CellState)
    (pos : nat * nat) :
  reconcile h old !! pos =
  if decide (pos ∈ mounted h) then Some (default initCell (old !! pos)) else None.
Proof.
  unfold reconcile.
  apply (lookup_list_to_map_fun (fun k => default initCell (old !! k))).
Qed.

(** C7: a category list with fewer than 2N elements is rendered without
    error: the labels that exist are all shown, the missing ones are absent,
    and the grid has that many fewer rows or columns. *)
Theorem short_category_list (h : HomeState) (m : Mode) :
  mode h = Some m ->
  length (categories h) < 2 * gridDimension m ->
  let N := gridDimension m in
  (rows h ++ cols h)%list = categories h /\
  length (rows h) = N `min` length (categories h) /\
  length (cols h) = length (categories h) - N /\
  (length (rows h) < N \/ length (cols h) < N) /\
  (strikes h < 3 ->
   render h = GameGrid m (strikes h) (players h) (rows h) (cols h) /\
   forall i j, (i, j) ∈ mounted h <-> i < length (rows h) /\ j < length (cols h)).
Proof.
  intros Hm Hlen N.
  rewrite (rows_take h m Hm), (cols_take_drop h m Hm). fold N.
  rewrite take_take_drop, !length_take, length_drop.
  split; [apply take_ge; lia|]. split; [reflexivity|]. split; [lia|].
  split; [lia|]. intros Hs. split.
  - unfold render. rewrite Hm.
    destruct (Nat.leb_spec 3 (strikes h)); [lia|].
    now rewrite (rows_take h m Hm), (cols_take_drop h m Hm).
  - intros i j. rewrite elem_of_mounted, Hm.
    rewrite (rows_take h m Hm), (cols_take_drop h m Hm), !length_take, length_drop.
    fold N. split; [tauto|]. intros [? ?]. repeat split; (congruence || lia).
Qed.

Lemma short_category_list_witness :
  let h := mkHome [] ["a"; "b"; "c"; "d"] (Some easy) 0 in
  (rows h ++ cols h)%list = ["a"; "b"; "c"; "d"] /\
  length (rows h) = 3 /\ length (cols h) = 1 /\
  render h = GameGrid easy 0 [] ["a"; "b"; "c"] ["d"].
Proof.
  intros h.
  assert (Hlen : length (categories h) < 2 * gridDimension easy) by (cbn; lia).
  destruct (short_category_list h easy eq_refl Hlen) as (Happ & Hr & Hc & _ & Hgrid).
  destruct Hgrid as [Hview _]; [cbn; lia|].
  split; [exact Happ|]. split; [exact Hr|]. split; [exact Hc | exact Hview].
Defined.

(** ** Resolving a guess *)

Lemma find_first {A : Type} (f : A -> bool) (l : list A) (x : A) :
  find f l = Some x ->
  exists before after,
    l = (before ++ x :: after)%list /\ f x = true /\
    forall y, In y before -> f y = false.
Proof.
  induction l as [|y l IH]; cbn [find]; [discriminate|].
  destruct (f y) eqn:Hy.
  - intros [= ->]. exists [], l. repeat split; [exact Hy | intros ? []].
  - intros Hfind. destruct (IH Hfind) as (before & after & -> & Hx & Hbefore).
    exists (y :: before), after. repeat split; [exact Hx|].
    intros z [<-|Hz]; [exact Hy | now apply Hbefore].
Qed.

Section Machine.

Variable toLowerCase : string -> string.

Lemma handleGuess_found (row col : string) (ps : list Player)
    (onStrike : HomeState -> HomeState) (c : CellState) (h : HomeState)
    (found : Player) :
  find (fun p => String.eqb (toLowerCase (name p)) (toLowerCase (guess c))) ps
    = Some found ->
  handleGuess toLowerCase row col ps onStrike c h =
  if isCorrectMatch (Some found) row && isCorrectMatch (Some found) col
  then (mkCell (guess c) (Some correct) (Some found), h)
  else (mkCell (guess c) (Some wrong) (Some found), onStrike h).
Proof.
  intros Hfind. unfold handleGuess. rewrite Hfind.
  now destruct (isCorrectMatch (Some found) row && isCorrectMatch (Some found) col).
Qed.

Lemma handleGuess_unmatched (row col : string) (ps : list Player)
    (onStrike : HomeState -> HomeState) (c : CellState) (h : HomeState) :
  (forall p, In p ps -> toLowerCase (name p) <> toLowerCase (guess c)) ->
  handleGuess toLowerCase row col ps onStrike c h = (c, h).
Proof.
  intros Hnone. unfold handleGuess.
  destruct (find _ ps) as [found|] eqn:Hfind; [|reflexivity].
  apply find_some in Hfind as [Hin Heq]. apply String.eqb_eq in Heq.
  now destruct (Hnone found Hin).
Qed.

Lemma handleGuess_home (row col : string) (ps : list Player)
    (c : CellState) (h : HomeState) :
  let h' := (handleGuess toLowerCase row col ps handleStrike c h).2 in
  h' = h \/ h' = handleStrike h.
Proof.
  unfold handleGuess. destruct (find _ ps) as [found|]; [|now left].
  destruct (isCorrectMatch (Some found) row && isCorrectMatch (Some found) col);
    [now left | now right].
Qed.

(** C2: a guess that matches a player's name case-insensitively resolves
    the cell with the first such player: correct exactly when that player
    satisfies both the row and the column condition, and then the strike
    count is unchanged; wrong otherwise, and then exactly one strike is
    reported, which raises the strike count by exactly one. *)
Theorem handleGuess_resolves (row col : string) (ps : list Player)
    (c : CellState) (h : HomeState) :
  (exists p, In p ps /\ toLowerCase (name p) = toLowerCase (guess c)) ->
  exists before found after,
    ps = (before ++ found :: after)%list /\
    toLowerCase (name found) = toLowerCase (guess c) /\
    (forall q, In q before -> toLowerCase (name q) <> toLowerCase (guess c)) /\
    let c' := (handleGuess toLowerCase row col ps handleStrike c h).1 in
    let h' := (handleGuess toLowerCase row col ps handleStrike c h).2 in
    player c' = Some found /\
    (result c' = Some correct <-> bothHold found row col) /\
    (result c' = Some wrong <-> ~ bothHold found row col) /\
    (bothHold found row col -> h' = h) /\
    (~ bothHold found row col ->
     h' = handleStrike h /\ strikes h' = strikes h + 1).
Proof.
  intros (p & Hin & Hp).
  destruct (find (fun p => String.eqb (toLowerCase (name p)) (toLowerCase (guess c))) ps)
    as [found|] eqn:Hfind.
  - destruct (find_first _ _ _ Hfind) as (before & after & Hps & Hfound & Hbefore).
    exists before, found, after. split; [exact Hps|].
    split; [now apply String.eqb_eq|].
    split; [intros q Hq; apply String.eqb_neq; now apply Hbefore|].
    rewrite (handleGuess_found row col ps handleStrike c h found Hfind).
    unfold bothHold.
    destruct (isCorrectMatch (Some found) row), (isCorrectMatch (Some found) col);
      cbn; repeat split; try tauto; try congruence; intuition congruence.
  - apply (find_none _ _ Hfind) in Hin. apply String.eqb_neq in Hin. contradiction.
Qed.

(** ** The state machine *)

Lemma home_modeEffect (prev : option Mode) (a : App) :
  home (modeEffect prev a) = home a.
Proof. unfold modeEffect. case_decide; [|destruct (mode (home a))]; reflexivity. Qed.

Lemma cells_modeEffect (prev : option Mode) (a : App) :
  cells (modeEffect prev a) = cells a.
Proof. unfold modeEffect. case_decide; [|destruct (mode (home a))]; reflexivity. Qed.

Lemma home_update (f : HomeState -> HomeState) (a : App) :
  home (update f a) = f (home a).
Proof. unfold update. now rewrite home_modeEffect. Qed.

Lemma cells_update (f : HomeState -> HomeState) (a : App) :
  cells (update f a) = reconcile (f (home a)) (cells a).
Proof. unfold update. now rewrite cells_modeEffect. Qed.

Lemma render_DifficultyScreen (h : HomeState) :
  render h = DifficultyScreen <-> mode h = None.
Proof.
  unfold render. destruct (mode h); [|tauto].
  destruct (3 <=? strikes h)%nat; split; discriminate.
Qed.

Lemma renderCell_GuessInput (c : CellState) :
  (exists v, renderCell c = GuessInput v) <-> player c = None.
Proof.
  unfold renderCell. destruct (player c); split; eauto; try discriminate.
  intros [v Hv]. discriminate.
Qed.

Lemma step_inv (a : App) (e : Event) (a' : App) :
  step toLowerCase a e = Some a' ->
  exists old, cells a' = reconcile (home a') old /\ stepped toLowerCase a e a' old.
Proof.
  destruct e as [m| |i j text|i j|ps|cs]; cbn [step stepped].
  - destruct (render (home a)) eqn:Hr; try discriminate. intros [= <-].
    apply render_DifficultyScreen in Hr.
    exists (cells a). rewrite home_update, cells_update. auto.
  - destruct (mode (home a)) as [m|] eqn:Hm.
    + assert (Hr : render (home a) <> DifficultyScreen)
        by (rewrite render_DifficultyScreen; congruence).
      destruct (render (home a)); try congruence; intros [= <-];
        exists (cells a); rewrite home_update, cells_update; auto.
    + apply render_DifficultyScreen in Hm. rewrite Hm. discriminate.
  - destruct (cells a !! (i, j)) as [c|] eqn:Hc; [|discriminate].
    destruct (renderCell c) eqn:Hv; [|discriminate]. intros [= <-].
    eexists. split; [reflexivity|]. exists c. cbn.
    rewrite <- renderCell_GuessInput. eauto.
  - destruct (cells a !! (i, j)) as [c|] eqn:Hc; [|discriminate].
    destruct (rows (home a) !! i) as [row|]; [|discriminate].
    destruct (cols (home a) !! j) as [col|]; [|discriminate].
    destruct (renderCell c) eqn:Hv; [|discriminate].
    destruct (handleGuess toLowerCase row col (players (home a)) handleStrike c (home a))
      as [c' h'] eqn:Hg.
    intros [= <-]. eexists. split; [reflexivity|]. exists c, row, col. cbn.
    rewrite Hg, <- renderCell_GuessInput. eauto 10.
  - destruct (pendingPlayers a) as [|n] eqn:Hn; [discriminate|]. intros [= <-].
    exists (cells a). rewrite home_update, cells_update. cbn. split; [reflexivity|].
    split; [lia | auto].
  - destruct (pendingCategories a) as [|n] eqn:Hn; [discriminate|]. intros [= <-].
    exists (cells a). rewrite home_update, cells_update. cbn. split; [reflexivity|].
    split; [lia | auto].
Qed.

Lemma is_Some_reconcile (h : HomeState) (old : gmap (nat * nat) CellState)
    (pos : nat * nat) :
  is_Some (reconcile h old !! pos) <-> pos ∈ mounted h.
Proof.
  rewrite lookup_reconcile. case_decide; split; intros H'; eauto; try tauto.
  now destruct H' as [? ?].
Qed.

Lemma reconcile_id (a : App) :
  invariant a -> reconcile (home a) (cells a) = cells a.
Proof.
  intros [Hwf _]. apply map_eq. intros pos. rewrite lookup_reconcile.
  case_decide as Hpos.
  - apply Hwf in Hpos as [c Hc]. now rewrite Hc.
  - destruct (cells a !! pos) eqn:Hc; [|reflexivity].
    exfalso. apply Hpos, Hwf. eauto.
Qed.

Lemma mounted_strikes (a : App) (pos : nat * nat) (c : CellState) :
  invariant a -> cells a !! pos = Some c ->
  mode (home a) <> None /\ strikes (home a) < 3 /\
  pos.1 < length (rows (home a)) /\ pos.2 < length (cols (home a)).
Proof.
  intros [Hwf _] Hc. destruct pos as [i j]. apply elem_of_mounted, Hwf. eauto.
Qed.

Lemma invariant_init : invariant initApp.
Proof.
  split; [|split; [cbn; lia | reflexivity]].
  intros pos. cbn. rewrite lookup_empty. split; [intros [? ?]; discriminate|].
  intros H. now apply elem_of_nil in H.
Qed.

Lemma invariant_step (a : App) (e : Event) (a' : App) :
  invariant a -> step toLowerCase a e = Some a' -> invariant a'.
Proof.
  intros Hinv Hstep. destruct (step_inv a e a' Hstep) as (old & Hcells & He).
  split; [intros pos; rewrite Hcells; apply is_Some_reconcile|].
  destruct Hinv as (Hwf & Hle & Hnone).
  destruct e as [m| |i j text|i j|ps|cs]; cbn [stepped] in He.
  - destruct He as (Hm & -> & _). cbn. rewrite (Hnone Hm). split; [lia | discriminate].
  - destruct He as (_ & -> & _). cbn. split; [lia | reflexivity].
  - destruct He as (c & _ & _ & -> & _). auto.
  - destruct He as (c & row & col & Hc & _ & _ & _ & -> & _).
    destruct (mounted_strikes a (i, j) c (conj Hwf (conj Hle Hnone)) Hc)
      as (Hm & Hlt & _).
    destruct (handleGuess_home row col (players (home a)) c (home a)) as [->| ->].
    + split; [lia | auto].
    + cbn. split; [lia | intros; congruence].
  - destruct He as (_ & -> & _). auto.
  - destruct He as (_ & -> & _). auto.
Qed.

Lemma reachable_invariant (a : App) : reachable toLowerCase a -> invariant a.
Proof.
  induction 1 as [|a e a' _ IH Hstep]; [apply invariant_init|].
  exact (invariant_step a e a' IH Hstep).
Qed.

Lemma reachable_run (a : App) (es : list Event) (a' : App) :
  reachable toLowerCase a -> run toLowerCase a es = Some a' ->
  reachable toLowerCase a'.
Proof.
  revert a. induction es as [|e es IH]; intros a Ha; cbn [run].
  - now intros [= <-].
  - destruct (step toLowerCase a e) as [a1|] eqn:Hstep; [|discriminate].
    apply IH. exact (reachable_step toLowerCase a e a1 Ha Hstep).
Qed.

(** ** An unmatched guess *)

(** C6: a guess that matches no player's name case-insensitively is
    ignored: the click on Submit is handled without error and leaves the
    whole page as it was, so the cell stays empty and the strike count is
    unchanged. *)
Theorem unmatched_guess_ignored (a : App) (i j : nat) (c : CellState) :
  reachable toLowerCase a ->
  cells a !! (i, j) = Some c ->
  player c = None ->
  (forall p, In p (players (home a)) ->
             toLowerCase (name p) <> toLowerCase (guess c)) ->
  step toLowerCase a (ClickSubmit i j) = Some a.
Proof.
  intros Ha Hc Hp Hnone. apply reachable_invariant in Ha.
  destruct (mounted_strikes a (i, j) c Ha Hc) as (_ & _ & Hi & Hj).
  apply lookup_lt_is_Some in Hi as [row Hrow], Hj as [col Hcol].
  cbn [step fst snd] in *. rewrite Hc, Hrow, Hcol.
  unfold renderCell. rewrite Hp.
  rewrite (handleGuess_unmatched row col _ handleStrike c (home a) Hnone).
  rewrite (insert_id _ _ _ Hc). unfold commit.
  cbn [home cells pendingPlayers pendingCategories]. rewrite (reconcile_id a Ha).
  now destruct a.
Qed.

(** ** Three strikes *)

Lemma terminal_cells (a : App) :
  invariant a -> 3 <= strikes (home a) -> cells a = ∅.
Proof.
  intros Hinv Hge. apply map_eq. intros pos. rewrite lookup_empty.
  destruct (cells a !! pos) as [c|] eqn:Hc; [|reflexivity].
  destruct (mounted_strikes a pos c Hinv Hc) as (_ & Hlt & _). lia.
Qed.

Lemma terminal_step (a : App) (e : Event) (a' : App) :
  invariant a -> strikes (home a) = 3 -> step toLowerCase a e = Some a' ->
  (e = ClickNewGame /\ strikes (home a') = 0) \/
  (isUserAction e = false /\ strikes (home a') = 3 /\ mode (home a') = mode (home a)).
Proof.
  intros Hinv H3 Hstep. destruct (step_inv a e a' Hstep) as (old & _ & He).
  pose proof (terminal_cells a Hinv ltac:(lia)) as Hempty.
  destruct e as [m| |i j text|i j|ps|cs]; cbn [stepped] in He.
  - destruct He as (Hm & _). destruct Hinv as (_ & _ & Hnone). rewrite (Hnone Hm) in H3. lia.
  - destruct He as (_ & -> & _). now left.
  - destruct He as (c & Hc & _). rewrite Hempty, lookup_empty in Hc. discriminate.
  - destruct He as (c & ? & ? & Hc & _). rewrite Hempty, lookup_empty in Hc. discriminate.
  - destruct He as (_ & -> & _). right. auto.
  - destruct He as (_ & -> & _). right. auto.
Qed.

Lemma terminal_run (a : App) (es : list Event) (a' : App) :
  invariant a -> strikes (home a) = 3 -> ClickNewGame ∉ es ->
  run toLowerCase a es = Some a' ->
  strikes (home a') = 3 /\ mode (home a') = mode (home a) /\ cells a' = ∅.
Proof.
  revert a. induction es as [|e es IH]; intros a Hinv H3 Hnot; cbn [run].
  - intros [= <-]. repeat split; [exact H3 | apply terminal_cells; [exact Hinv | lia]].
  - destruct (step toLowerCase a e) as [a1|] eqn:Hstep; [|discriminate].
    intros Hrun.
    destruct (terminal_step a e a1 Hinv H3 Hstep) as [[-> _]|(_ & H3' & Hm)].
    + exfalso. apply Hnot. left.
    + destruct (IH a1 (invariant_step a e a1 Hinv Hstep) H3') as (? & ? & ?);
        [intros Hin; apply Hnot; now right | exact Hrun |].
      repeat split; congruence.
Qed.

(** C3: in every reachable state the strike count is at most 3, and when it
    is 3 the session is over: the end-of-game message is shown instead of
    the grid, no cell is left to take a guess, no event raises the strike
    count, and until New Game is clicked the count stays 3 and no cell
    comes back. *)
Theorem three_strikes_terminal (a : App) :
  reachable toLowerCase a ->
  strikes (home a) <= 3 /\
  (strikes (home a) = 3 ->
   (exists m, render (home a) = GameOverMessage m 3) /\
   cells a = ∅ /\
   (forall i j, step toLowerCase a (ClickSubmit i j) = None) /\
   (forall e a', step toLowerCase a e = Some a' ->
                 strikes (home a') <= strikes (home a)) /\
   (forall es a', ClickNewGame ∉ es -> run toLowerCase a es = Some a' ->
                  strikes (home a') = 3 /\ cells a' = ∅ /\
                  exists m, render (home a') = GameOverMessage m 3)).
Proof.
  intros Ha. apply reachable_invariant in Ha. pose proof Ha as (_ & Hle & Hnone).
  split; [exact Hle|]. intros H3.
  assert (Hover : forall b, strikes (home b) = 3 -> mode (home b) = mode (home a) ->
                            exists m, render (home b) = GameOverMessage m 3).
  { intros b Hb Hm. unfold render. rewrite Hm, Hb.
    destruct (mode (home a)) as [m|]; [now exists m|].
    rewrite Hnone in H3 by reflexivity. lia. }
  pose proof (terminal_cells a Ha ltac:(lia)) as Hempty.
  split; [now apply Hover|]. split; [exact Hempty|]. split; [|split].
  - intros i j. cbn [step]. now rewrite Hempty, lookup_empty.
  - intros e a' Hstep. destruct (terminal_step a e a' Ha H3 Hstep) as [[_ ->]|(_ & -> & _)]; lia.
  - intros es a' Hnot Hrun.
    destruct (terminal_run a es a' Ha H3 Hnot Hrun) as (H3' & Hm & Hc).
    split; [exact H3'|]. split; [exact Hc|]. now apply Hover.
Qed.

(** ** New Game *)

Lemma mounted_no_mode (h : HomeState) : mode h = None -> mounted h = [].
Proof. intros Hm. unfold mounted, render. now rewrite Hm. Qed.

Lemma reconcile_no_mode (h : HomeState) (old : gmap (nat * nat) CellState) :
  mode h = None -> reconcile h old = ∅.
Proof. intros Hm. unfold reconcile. now rewrite (mounted_no_mode h Hm). Qed.

Lemma pending_update_same_mode (f : HomeState -> HomeState) (a : App) :
  mode (f (home a)) = None \/ mode (f (home a)) = mode (home a) ->
  pendingPlayers (update f a) = pendingPlayers a /\
  pendingCategories (update f a) = pendingCategories a.
Proof.
  intros Hm. unfold update, modeEffect. cbn [commit home mode].
  case_decide as Hd; [now split|].
  destruct (mode (f (home a))) eqn:Hf; [|now split].
  destruct Hm; congruence.
Qed.

Lemma pending_update_new_mode (f : HomeState -> HomeState) (a : App) (m : Mode) :
  mode (home a) = None -> mode (f (home a)) = Some m ->
  pendingPlayers (update f a) = pendingPlayers a + 1 /\
  pendingCategories (update f a) = pendingCategories a + 1.
Proof.
  intros Hn Hm. unfold update, modeEffect. cbn [commit home mode].
  rewrite Hm, Hn. case_decide; [congruence | now split].
Qed.

Lemma step_ClickNewGame (a : App) :
  mode (home a) <> None ->
  step toLowerCase a ClickNewGame = Some (update resetGame a).
Proof.
  intros Hm. cbn [step]. rewrite <- render_DifficultyScreen in Hm.
  now destruct (render (home a)).
Qed.

Lemma step_ChooseDifficulty (a : App) (m : Mode) :
  mode (home a) = None ->
  step toLowerCase a (ChooseDifficulty m) = Some (update (setMode (Some m)) a).
Proof.
  intros Hm. cbn [step]. apply render_DifficultyScreen in Hm. now rewrite Hm.
Qed.

Lemma step_ClickSubmit (a : App) (i j : nat) (c : CellState) (row col : string) :
  cells a !! (i, j) = Some c -> player c = None ->
  rows (home a) !! i = Some row -> cols (home a) !! j = Some col ->
  let r := handleGuess toLowerCase row col (players (home a)) handleStrike c (home a) in
  step toLowerCase a (ClickSubmit i j) =
  Some (commit (mkApp r.2 (<[(i, j) := r.1]> (cells a))
                      (pendingPlayers a) (pendingCategories a))).
Proof.
  intros Hc Hp Hrow Hcol r. subst r. cbn [step]. rewrite Hc, Hrow, Hcol.
  unfold renderCell. rewrite Hp.
  now destruct (handleGuess toLowerCase row col (players (home a)) handleStrike c (home a)).
Qed.

(** C8: New Game, in whatever state the page is, leaves zero strikes, no
    difficulty, no cell state and the difficulty screen; it can be clicked
    whenever a difficulty is chosen; and every cell of the next grid starts
    out empty. *)
Theorem resetGame_restores_start (a : App) :
  let a' := update resetGame a in
  strikes (home a') = 0 /\
  mode (home a') = None /\
  cells a' = ∅ /\
  render (home a') = DifficultyScreen /\
  (mode (home a) <> None -> step toLowerCase a ClickNewGame = Some a') /\
  (forall m, exists a'',
      step toLowerCase a' (ChooseDifficulty m) = Some a'' /\
      forall pos c, cells a'' !! pos = Some c -> c = initCell).
Proof.
  intros a'. subst a'.
  assert (Hh : home (update resetGame a) = resetGame (home a)) by apply home_update.
  assert (Hc : cells (update resetGame a) = ∅).
  { rewrite cells_update. now apply reconcile_no_mode. }
  rewrite Hh, Hc. split; [reflexivity|]. split; [reflexivity|].
  split; [reflexivity|]. split; [reflexivity|].
  split; [apply step_ClickNewGame|].
  intros m. eexists. split.
  - apply step_ChooseDifficulty. now rewrite Hh.
  - intros pos c. rewrite cells_update, lookup_reconcile, Hc, lookup_empty.
    case_decide; [|discriminate]. now intros [= <-].
Qed.

(** C10: New Game writes only the difficulty and the strike count of
    [Home]: the players and the categories fetched before stay as they
    were, and no fetch is started.  The next difficulty chosen therefore
    shows the grid made from the old lists, with a new fetch of each list
    pending, and each list is replaced when its fetch delivers. *)
Theorem resetGame_keeps_lists (a : App) :
  let a' := update resetGame a in
  home a' = mkHome (players (home a)) (categories (home a)) None 0 /\
  pendingPlayers a' = pendingPlayers a /\
  pendingCategories a' = pendingCategories a /\
  forall m, exists a'',
    step toLowerCase a' (ChooseDifficulty m) = Some a'' /\
    home a'' = mkHome (players (home a)) (categories (home a)) (Some m) 0 /\
    render (home a'') =
      GameGrid m 0 (players (home a))
        (take (gridDimension m) (categories (home a)))
        (take (gridDimension m) (drop (gridDimension m) (categories (home a)))) /\
    pendingPlayers a'' = pendingPlayers a + 1 /\
    pendingCategories a'' = pendingCategories a + 1 /\
    (forall ps, exists a3,
        step toLowerCase a'' (PlayersFetched ps) = Some a3 /\
        home a3 = mkHome ps (categories (home a)) (Some m) 0) /\
    (forall cs, exists a3,
        step toLowerCase a'' (CategoriesFetched cs) = Some a3 /\
        home a3 = mkHome (players (home a)) cs (Some m) 0).
Proof.
  intros a'. subst a'.
  assert (Hh : home (update resetGame a) = resetGame (home a)) by apply home_update.
  destruct (pending_update_same_mode resetGame a) as [Hp Hc]; [now left|].
  split; [exact Hh|]. split; [exact Hp|]. split; [exact Hc|].
  intros m. set (a1 := update resetGame a) in *.
  assert (Hn : mode (home a1) = None) by now rewrite Hh.
  exists (update (setMode (Some m)) a1).
  assert (Hh2 : home (update (setMode (Some m)) a1) =
                mkHome (players (home a)) (categories (home a)) (Some m) 0)
    by now rewrite home_update, Hh.
  destruct (pending_update_new_mode (setMode (Some m)) a1 m Hn eq_refl) as [Hp2 Hc2].
  split; [now apply step_ChooseDifficulty|]. split; [exact Hh2|].
  split.
  { rewrite Hh2. unfold render. cbn [mode strikes Nat.leb players].
    now rewrite (rows_take (mkHome _ _ (Some m) 0) m eq_refl),
      (cols_take_drop (mkHome _ _ (Some m) 0) m eq_refl). }
  split; [lia|]. split; [lia|]. split.
  - intros ps. eexists. cbn [step]. rewrite Hp2, Nat.add_1_r.
    split; [reflexivity|]. now rewrite home_update; cbn [home]; rewrite Hh2.
  - intros cs. eexists. cbn [step]. rewrite Hc2, Nat.add_1_r.
    split; [reflexivity|]. now rewrite home_update; cbn [home]; rewrite Hh2.
Qed.

(** ** A resolved cell *)






End Machine.

(** ** The theorems at work on a sample game *)

Lemma reachable_after (es : list Event) :
  run asciiLower initApp es = Some (after es) -> reachable asciiLower (after es).
Proof. apply reachable_run, reachable_init. Defined.

Lemma handleGuess_resolves_witness :
  exists before found after,
    [scump; simp] = (before ++ found :: after)%list /\
    asciiLower (name found) = asciiLower "SIMP" /\
    (forall q, In q before -> asciiLower (name q) <> asciiLower "SIMP") /\
    let r := handleGuess asciiLower "Played for OpTic" "K/D over 1.1" [scump; simp]
               handleStrike (mkCell "SIMP" None None) initHome in
    player r.1 = Some found /\
    (result r.1 = Some correct <-> bothHold found "Played for OpTic" "K/D over 1.1") /\
    (result r.1 = Some wrong <-> ~ bothHold found "Played for OpTic" "K/D over 1.1") /\
    (bothHold found "Played for OpTic" "K/D over 1.1" -> r.2 = initHome) /\
    (~ bothHold found "Played for OpTic" "K/D over 1.1" ->
     r.2 = handleStrike initHome /\ strikes r.2 = strikes initHome + 1).
Proof.
  apply (handleGuess_resolves asciiLower "Played for OpTic" "K/D over 1.1"
           [scump; simp] (mkCell "SIMP" None None) initHome).
  exists simp. split; [right; left; reflexivity | reflexivity].
Defined.

Lemma unmatched_guess_ignored_witness :
  let a := after (startEasy ++ [ChangeGuess 0 0 "Crimsix"]) in
  step asciiLower a (ClickSubmit 0 0) = Some a.
Proof.
  intros a.
  apply (unmatched_guess_ignored asciiLower a 0 0 (mkCell "Crimsix" None None)).
  - apply reachable_after. vm_compute. reflexivity.
  - vm_compute. reflexivity.
  - reflexivity.
  - intros p [<-|[<-|[]]]; vm_compute; discriminate.
Defined.

Lemma three_strikes_terminal_witness :
  let a := after (startEasy ++
                  [ ChangeGuess 0 0 "simp"; ClickSubmit 0 0;
                    ChangeGuess 0 1 "simp"; ClickSubmit 0 1;
                    ChangeGuess 0 2 "simp"; ClickSubmit 0 2 ]) in
  strikes (home a) = 3 /\
  render (home a) = GameOverMessage easy 3 /\
  cells a = ∅ /\
  step asciiLower a (ClickSubmit 1 1) = None.
Proof.
  intros a.
  assert (Ha : reachable asciiLower a) by (apply reachable_after; vm_compute; reflexivity).
  assert (H3 : strikes (home a) = 3) by (vm_compute; reflexivity).
  destruct (three_strikes_terminal asciiLower a Ha) as [_ Hterm].
  destruct (Hterm H3) as (_ & Hempty & Hsubmit & _).
  split; [exact H3|]. split; [vm_compute; reflexivity|].
  split; [exact Hempty | apply Hsubmit].
Defined.

Lemma resetGame_restores_start_witness :
  let a := after (startEasy ++ [ChangeGuess 0 0 "simp"; ClickSubmit 0 0]) in
  strikes (home a) = 1 /\
  exists a', step asciiLower a ClickNewGame = Some a' /\
             strikes (home a') = 0 /\ mode (home a') = None /\ cells a' = ∅.
Proof.
  intros a. split; [vm_compute; reflexivity|].
  destruct (resetGame_restores_start asciiLower a) as (Hs & Hm & Hc & _ & Hstep & _).
  exists (update resetGame a). split; [|split; [exact Hs | split; [exact Hm | exact Hc]]].
  apply Hstep. vm_compute. discriminate.
Defined.



(** * Further properties of the page *)

(** ** The evaluator reads the arrays as sets *)

Lemma includes_subset (l k : list string) (x : string) :
  (forall y, In y l -> In y k) -> includes l x = true -> includes k x = true.
Proof. rewrite !includes_In. auto. Qed.

Lemma isCorrectMatch_more_members (p q : Player) (condition : string) :
  name p = name q -> kd p = kd q ->
  (forall x, In x (teams p) -> In x (teams q)) ->
  (forall x, In x (roles p) -> In x (roles q)) ->
  (forall x, In x (maps p) -> In x (maps q)) ->
  isCorrectMatch (Some p) condition = true ->
  isCorrectMatch (Some q) condition = true.
Proof.
  intros Hname Hkd Ht Hr Hm. unfold isCorrectMatch. rewrite <- Hname, <- Hkd.
  case_label condition; cbn; try discriminate;
    rewrite ?andb_true_iff; intuition eauto using includes_subset.
Qed.

(** X1: the answer of [isCorrectMatch] depends on the name, the K/D and the
    members of the three arrays only: neither the image nor the order or
    the repetition of teams, roles and maps matters. *)
Theorem isCorrectMatch_set_semantics (p q : Player) (condition : string) :
  name p = name q -> kd p = kd q ->
  sameMembers (teams p) (teams q) ->
  sameMembers (roles p) (roles q) ->
  sameMembers (maps p) (maps q) ->
  isCorrectMatch (Some p) condition = isCorrectMatch (Some q) condition.
Proof.
  intros Hname Hkd Ht Hr Hm. apply Bool.eq_iff_eq_true. split.
  - apply isCorrectMatch_more_members; auto; intros x; [apply Ht | apply Hr | apply Hm].
  - apply isCorrectMatch_more_members; auto; intros x; [apply Ht | apply Hr | apply Hm].
Qed.

Lemma isCorrectMatch_set_semantics_witness :
  isCorrectMatch (Some scump) "Used AR on Fortress" =
  isCorrectMatch
    (Some (mkPlayer "Scump" "/other.png" ["OpTic"; "OpTic"] ["AR"; "SMG"] 1.2%float
                    ["Fortress"; "Hotel"; "Hotel"]))
    "Used AR on Fortress".
Proof.
  apply isCorrectMatch_set_semantics; try reflexivity;
    intros x; cbn; tauto.
Defined.

(** X2: a player with the same name and K/D who has at least the teams,
    roles and maps of another satisfies every condition the other
    satisfies: no rule tests the absence of a team, role or map. *)
Theorem isCorrectMatch_monotone (p q : Player) (condition : string) :
  name p = name q -> kd p = kd q ->
  (forall x, In x (teams p) -> In x (teams q)) ->
  (forall x, In x (roles p) -> In x (roles q)) ->
  (forall x, In x (maps p) -> In x (maps q)) ->
  isCorrectMatch (Some p) condition = true ->
  isCorrectMatch (Some q) condition = true.
Proof.
  intros Hname Hkd Ht Hr Hm. unfold isCorrectMatch. rewrite <- Hname, <- Hkd.
  case_label condition; cbn; try discriminate;
    rewrite ?andb_true_iff, ?includes_In; intuition auto.
Qed.

Lemma isCorrectMatch_monotone_witness :
  isCorrectMatch
    (Some (mkPlayer "Simp" "/simp.png" ["FaZe"; "NYSL"] ["SMG"; "Flex"] 1.0%float
                    ["Embassy"; "Expo"]))
    "Played for FaZe" = true.
Proof.
  apply (isCorrectMatch_monotone simp); try reflexivity;
    intros x; cbn; tauto.
Defined.

(** ** Label derivation, whatever the length of the list *)

(** X3: the labels on screen are the first 2N categories in their order,
    rows first; whatever comes after them is never shown, and the grid is a
    full N by N one exactly when at least 2N categories were delivered. *)
Theorem labels_are_prefix (h : HomeState) (m : Mode) :
  mode h = Some m ->
  let N := gridDimension m in
  (rows h ++ cols h)%list = take (2 * N) (categories h) /\
  (length (rows h) = N /\ length (cols h) = N <-> 2 * N <= length (categories h)).
Proof.
  intros Hm N. rewrite (rows_take h m Hm), (cols_take_drop h m Hm). fold N.
  rewrite take_take_drop, !length_take, length_drop.
  split; [f_equal; lia | lia].
Qed.

Lemma labels_are_prefix_witness :
  let h := mkHome [] sampleCategories (Some easy) 0 in
  (rows h ++ cols h)%list = take 6 sampleCategories /\
  (length (rows h) = 3 /\ length (cols h) = 3 <-> 6 <= 8).
Proof. intros h. exact (labels_are_prefix h easy eq_refl). Defined.

(** ** The markup of the grid *)

Lemma lookup_join_rows {A : Type} (ls : list (list A)) (n i j : nat) :
  Forall (fun l => length l = n) ls -> j < n ->
  mjoin ls !! (i * n + j) = ls !! i ≫= (.!! j).
Proof.
  intros Hls Hj. revert i. induction Hls as [|l ls Hl _ IH]; intros i.
  - now rewrite !lookup_nil.
  - change (mjoin (l :: ls)) with (l ++ mjoin ls)%list. destruct i as [|i].
    + cbn. apply lookup_app_l. lia.
    + replace (S i * n + j) with (length l + (i * n + j)) by lia.
      rewrite lookup_app_r by lia.
      replace (length l + (i * n + j) - length l) with (i * n + j) by lia.
      exact (IH i).
Qed.

Lemma length_join_rows {A : Type} (ls : list (list A)) (n : nat) :
  Forall (fun l => length l = n) ls -> length (mjoin ls) = length ls * n.
Proof.
  induction 1 as [|l ls Hl _ IH]; [reflexivity|].
  change (mjoin (l :: ls)) with (l ++ mjoin ls)%list.
  rewrite length_app, IH. cbn. lia.
Qed.

Lemma GameGrid_rows_uniform (rows cols : list string) :
  Forall (fun l => length l = gridTemplateColumns cols)
         (imap (fun i r => RowHeader i r :: imap (fun j c => Cell i j r c) cols) rows).
Proof.
  apply Forall_forall. intros l Hl. apply list_elem_of_lookup in Hl as [i Hi].
  rewrite list_lookup_imap in Hi. destruct (rows !! i) as [r|]; [|discriminate].
  injection Hi as <-. cbn. rewrite length_imap. unfold gridTemplateColumns. lia.
Qed.

(** X4: the markup of [GameGrid] fills a table of [rows.length + 1] lines
    of [cols.length + 1] grid columns each, in row-major order: the corner,
    then the column headers; and on line [i + 1] the header of row [i]
    followed, under the header of column [j], by the cell with key [i-j],
    whose props are the row label [i] and the column label [j]. *)
Theorem GameGrid_layout (rows cols : list string) :
  let n := gridTemplateColumns cols in
  let children := GameGridChildren rows cols in
  length children = (length rows + 1) * n /\
  children !! 0 = Some Corner /\
  (forall j c, cols !! j = Some c -> children !! (j + 1) = Some (ColumnHeader j c)) /\
  (forall i r, rows !! i = Some r -> children !! ((i + 1) * n) = Some (RowHeader i r)) /\
  (forall i j r c, rows !! i = Some r -> cols !! j = Some c ->
                   children !! ((i + 1) * n + (j + 1)) = Some (Cell i j r c)).
Proof.
  intros n children. subst children. unfold GameGridChildren.
  pose proof (GameGrid_rows_uniform rows cols) as Huni. fold n in Huni.
  assert (Hat : forall i k,
             (Corner :: (imap ColumnHeader cols ++
                mjoin (imap (fun i r => RowHeader i r :: imap (fun j c => Cell i j r c) cols)
                            rows))%list) !! ((i + 1) * n + k) =
             mjoin (imap (fun i r => RowHeader i r :: imap (fun j c => Cell i j r c) cols)
                         rows) !! (i * n + k)).
  { intros i k. unfold n, gridTemplateColumns.
    replace ((i + 1) * (length cols + 1) + k)
      with (S (length (imap ColumnHeader cols) + (i * (length cols + 1) + k)))
      by (rewrite length_imap; lia).
    rewrite lookup_cons. rewrite lookup_app_r by lia. f_equal. lia. }
  split; [|split; [reflexivity|split; [|split]]].
  - cbn [length]. rewrite length_app, length_imap, (length_join_rows _ n Huni), length_imap.
    unfold n, gridTemplateColumns. lia.
  - intros j c Hc. rewrite Nat.add_1_r, lookup_cons.
    rewrite lookup_app_l by (rewrite length_imap; now apply lookup_lt_Some in Hc).
    now rewrite list_lookup_imap, Hc.
  - intros i r Hr. replace ((i + 1) * n) with ((i + 1) * n + 0) by lia.
    rewrite Hat, (lookup_join_rows _ n i 0 Huni) by (unfold n, gridTemplateColumns; lia).
    now rewrite list_lookup_imap, Hr.
  - intros i j r c Hr Hc. rewrite Hat.
    rewrite (lookup_join_rows _ n i (j + 1) Huni)
      by (unfold n, gridTemplateColumns; apply lookup_lt_Some in Hc; lia).
    rewrite list_lookup_imap, Hr. cbn. rewrite Nat.add_1_r, lookup_cons.
    now rewrite list_lookup_imap, Hc.
Qed.

Lemma GameGrid_layout_witness :
  GameGridChildren ["r0"; "r1"] ["c0"; "c1"; "c2"] !! ((1 + 1) * 4 + (2 + 1))
  = Some (Cell 1 2 "r1" "c2").
Proof.
  destruct (GameGrid_layout ["r0"; "r1"] ["c0"; "c1"; "c2"]) as (_ & _ & _ & _ & Hcell).
  apply (Hcell 1 2 "r1" "c2"); reflexivity.
Defined.

Lemma omap_cellKey_headers_from (g : nat -> nat) (cols : list string) :
  omap cellKey (imap (fun j c => ColumnHeader (g j) c) cols) = [].
Proof.
  revert g. induction cols as [|c cols IH]; intros g; [reflexivity|].
  rewrite imap_cons. cbn. exact (IH (g ∘ S)).
Qed.

Lemma omap_cellKey_headers (cols : list string) :
  omap cellKey (imap ColumnHeader cols) = [].
Proof. exact (omap_cellKey_headers_from id cols). Qed.

Lemma omap_cellKey_row (i t : nat) (r : string) (cols : list string) :
  omap cellKey (imap (fun j c => Cell i (t + j) r c) cols) =
  (fun j => (i, j)) <$> seq t (length cols).
Proof.
  revert t. induction cols as [|c cols IH]; intros t; [reflexivity|].
  rewrite imap_cons. cbn. rewrite Nat.add_0_r. f_equal.
  rewrite <- (IH (S t)). f_equal. apply imap_ext. intros j x _. cbn.
  f_equal. lia.
Qed.

Lemma cprod_cons_l (x : nat) (l k : list nat) :
  cprod (x :: l) k = (((fun j => (x, j)) <$> k) ++ cprod l k)%list.
Proof. reflexivity. Qed.

Lemma omap_cellKey_rows (s : nat) (rows cols : list string) :
  omap cellKey
    (mjoin (imap (fun i r => RowHeader (s + i) r ::
                             imap (fun j c => Cell (s + i) j r c) cols) rows)) =
  cprod (seq s (length rows)) (seq 0 (length cols)).
Proof.
  revert s. induction rows as [|r rows IH]; intros s; [reflexivity|].
  rewrite imap_cons.
  change (mjoin (?l :: ?ls)) with (l ++ mjoin ls)%list.
  rewrite omap_app. cbn [length seq]. rewrite cprod_cons_l.
  f_equal.
  - cbn. rewrite Nat.add_0_r. exact (omap_cellKey_row s 0 r cols).
  - rewrite <- (IH (S s)). f_equal. f_equal. apply imap_ext. intros i x _. cbn.
    replace (s + S i) with (S (s + i)) by lia. reflexivity.
Qed.

(** X5: the cells that the markup of [GameGrid] contains are, in document
    order, the positions held to be mounted, and the cell with key [i-j]
    receives as props the row label at index [i] and the column label at
    index [j], the ones its guess is evaluated against. *)
Theorem GameGrid_cells (h : HomeState) (m : Mode) (s : nat) (ps : list Player)
    (rs cs : list string) :
  render h = GameGrid m s ps rs cs ->
  mounted h = omap cellKey (GameGridChildren rs cs) /\
  forall i j row col,
    Cell i j row col ∈ GameGridChildren rs cs <->
    rows h !! i = Some row /\ cols h !! j = Some col.
Proof.
  intros Hr.
  assert (Hrc : rs = rows h /\ cs = cols h).
  { unfold render in Hr. destruct (mode h); [|discriminate].
    destruct (3 <=? strikes h)%nat; [discriminate|]. now injection Hr as _ _ _ <- <-. }
  destruct Hrc as [-> ->]. split.
  - unfold mounted. rewrite Hr. unfold GameGridChildren. cbn [omap list_omap cellKey].
    rewrite omap_app, omap_cellKey_headers. cbn [app].
    symmetry. exact (omap_cellKey_rows 0 (rows h) (cols h)).
  - intros i j row col. unfold GameGridChildren. rewrite elem_of_cons, elem_of_app.
    split.
    + intros [Hc|[Hc|Hc]]; [discriminate Hc | |].
      * apply list_elem_of_lookup in Hc as [k Hk]. rewrite list_lookup_imap in Hk.
        destruct (cols h !! k); discriminate.
      * apply list_elem_of_join in Hc as (l & Hin & Hl).
        apply list_elem_of_lookup in Hl as [i' Hi']. rewrite list_lookup_imap in Hi'.
        destruct (rows h !! i') as [r|] eqn:Hrow; [|discriminate].
        injection Hi' as <-. apply elem_of_cons in Hin as [Hin|Hin]; [discriminate|].
        apply list_elem_of_lookup in Hin as [j' Hj']. rewrite list_lookup_imap in Hj'.
        destruct (cols h !! j') as [c|] eqn:Hcol; [|discriminate].
        injection Hj' as <- <- <- <-. now split.
    + intros [Hrow Hcol]. right. right. apply list_elem_of_join.
      exists (RowHeader i row :: imap (fun j c => Cell i j row c) (cols h)). split.
      * right. apply (list_elem_of_lookup_2 _ j). now rewrite list_lookup_imap, Hcol.
      * apply (list_elem_of_lookup_2 _ i). now rewrite list_lookup_imap, Hrow.
Qed.

Lemma GameGrid_cells_witness :
  let h := mkHome [] ["a"; "b"; "c"; "d"; "e"] (Some easy) 0 in
  mounted h = omap cellKey (GameGridChildren ["a"; "b"; "c"] ["d"; "e"]) /\
  (Cell 2 1 "c" "e" ∈ GameGridChildren ["a"; "b"; "c"] ["d"; "e"] <->
   rows h !! 2 = Some "c" /\ cols h !! 1 = Some "e").
Proof.
  intros h.
  destruct (GameGrid_cells h easy 0 [] ["a"; "b"; "c"] ["d"; "e"] eq_refl) as [Hm Hc].
  split; [exact Hm | apply Hc].
Defined.

(** ** More on resolving a guess *)

Lemma NoDup_map_injective {A B : Type} (f : A -> B) (l : list A) (x y : A) :
  NoDup (map f l) -> In x l -> In y l -> f x = f y -> x = y.
Proof.
  induction l as [|z l IH]; cbn [map]; [intros _ []|].
  intros Hnd [->|Hx] [->|Hy] Hxy; try reflexivity.
  - apply NoDup_cons in Hnd as [Hz _]. exfalso. apply Hz. rewrite Hxy.
    apply list_elem_of_In, in_map, Hy.
  - apply NoDup_cons in Hnd as [Hz _]. exfalso. apply Hz. rewrite <- Hxy.
    apply list_elem_of_In, in_map, Hx.
  - apply NoDup_cons in Hnd as [_ Hnd]. now apply IH.
Qed.

Section Play.

Variable toLowerCase : string -> string.

Lemma handleGuess_cases (row col : string) (ps : list Player)
    (onStrike : HomeState -> HomeState) (c : CellState) (h : HomeState) :
  let r := handleGuess toLowerCase row col ps onStrike c h in
  r = (c, h) \/
  (exists found, In found ps /\ toLowerCase (name found) = toLowerCase (guess c) /\
                 r = (mkCell (guess c) (Some correct) (Some found), h)) \/
  (exists found, In found ps /\ toLowerCase (name found) = toLowerCase (guess c) /\
                 r = (mkCell (guess c) (Some wrong) (Some found), onStrike h)).
Proof.
  intros r. subst r.
  destruct (find (fun p => String.eqb (toLowerCase (name p)) (toLowerCase (guess c))) ps)
    as [found|] eqn:Hfind.
  - rewrite (handleGuess_found toLowerCase row col ps onStrike c h found Hfind).
    apply find_some in Hfind as [Hin Heq]. apply String.eqb_eq in Heq.
    destruct (isCorrectMatch (Some found) row && isCorrectMatch (Some found) col);
      [right; left | right; right]; exists found; auto.
  - left. unfold handleGuess. now rewrite Hfind.
Qed.

(** X6: the case of the typed text does not matter: two texts that lower to
    the same string resolve to the same player with the same outcome and
    the same effect on the strikes (only the text kept in the cell
    differs). *)
Theorem handleGuess_case_insensitive (row col : string) (ps : list Player)
    (onStrike : HomeState -> HomeState) (c1 c2 : CellState) (h : HomeState) :
  toLowerCase (guess c1) = toLowerCase (guess c2) ->
  player c1 = player c2 -> result c1 = result c2 ->
  let r1 := handleGuess toLowerCase row col ps onStrike c1 h in
  let r2 := handleGuess toLowerCase row col ps onStrike c2 h in
  player r1.1 = player r2.1 /\ result r1.1 = result r2.1 /\ r1.2 = r2.2.
Proof.
  intros Hlow Hp Hr r1 r2. subst r1 r2. unfold handleGuess. rewrite Hlow.
  destruct (find _ ps) as [found|]; [|now cbn].
  now destruct (isCorrectMatch (Some found) row && isCorrectMatch (Some found) col).
Qed.

(** X7: when no two players have the same name up to case, a guess that
    matches a player resolves the cell with that very player. *)
Theorem handleGuess_unique_name (row col : string) (ps : list Player)
    (onStrike : HomeState -> HomeState) (c : CellState) (h : HomeState) (p : Player) :
  NoDup (map (fun q => toLowerCase (name q)) ps) ->
  In p ps ->
  toLowerCase (name p) = toLowerCase (guess c) ->
  player (handleGuess toLowerCase row col ps onStrike c h).1 = Some p.
Proof.
  intros Hnd Hin Hp.
  destruct (find (fun q => String.eqb (toLowerCase (name q)) (toLowerCase (guess c))) ps)
    as [found|] eqn:Hfind.
  - rewrite (handleGuess_found toLowerCase row col ps onStrike c h found Hfind).
    apply find_some in Hfind as [Hf Heq]. apply String.eqb_eq in Heq.
    assert (found = p) as ->
      by (apply (NoDup_map_injective (fun q => toLowerCase (name q)) ps); auto; congruence).
    now destruct (isCorrectMatch (Some p) row && isCorrectMatch (Some p) col).
  - apply (find_none _ _ Hfind) in Hin. apply String.eqb_neq in Hin. contradiction.
Qed.

(** ** What the cells on screen hold *)

Lemma reconcile_same_dom (h : HomeState) (m : gmap (nat * nat) CellState) :
  (forall pos, is_Some (m !! pos) <-> pos ∈ mounted h) -> reconcile h m = m.
Proof.
  intros Hdom. apply map_eq. intros pos. rewrite lookup_reconcile.
  case_decide as Hpos.
  - apply Hdom in Hpos as [c Hc]. now rewrite Hc.
  - destruct (m !! pos) eqn:Hc; [|reflexivity]. exfalso. apply Hpos, Hdom. eauto.
Qed.

Lemma step_cell_origin (a : App) (e : Event) (a' : App) (pos : nat * nat)
    (c' : CellState) :
  step toLowerCase a e = Some a' -> cells a' !! pos = Some c' ->
  c' = initCell \/ cells a !! pos = Some c' \/
  (exists text c, e = ChangeGuess pos.1 pos.2 text /\ cells a !! pos = Some c /\
                  player c = None /\ c' = setGuess text c) \/
  (exists c row col,
      e = ClickSubmit pos.1 pos.2 /\ cells a !! pos = Some c /\ player c = None /\
      rows (home a) !! pos.1 = Some row /\ cols (home a) !! pos.2 = Some col /\
      c' = (handleGuess toLowerCase row col (players (home a)) handleStrike c (home a)).1).
Proof.
  intros Hstep Hc'. destruct (step_inv toLowerCase a e a' Hstep) as (old & Hcells & He).
  rewrite Hcells, lookup_reconcile in Hc'. case_decide; [|discriminate].
  injection Hc' as <-.
  assert (Hold : old = cells a ->
                 default initCell (old !! pos) = initCell \/
                 cells a !! pos = Some (default initCell (old !! pos))).
  { intros ->. destruct (cells a !! pos); [now right | now left]. }
  destruct e as [m| |i j text|i j|ps|cs]; cbn [stepped] in He.
  - destruct He as (_ & _ & Ho). destruct (Hold Ho); auto.
  - destruct He as (_ & _ & Ho). destruct (Hold Ho); auto.
  - destruct He as (c & Hc & Hp & _ & ->).
    destruct (decide ((i, j) = pos)) as [<-|Hne].
    + rewrite lookup_insert_eq. right. right. left. exists text, c. auto.
    + rewrite lookup_insert_ne by exact Hne.
      destruct (cells a !! pos); [right; now left | now left].
  - destruct He as (c & row & col & Hc & Hp & Hrow & Hcol & _ & ->).
    destruct (decide ((i, j) = pos)) as [<-|Hne].
    + rewrite lookup_insert_eq. right. right. right. exists c, row, col. auto 10.
    + rewrite lookup_insert_ne by exact Hne.
      destruct (cells a !! pos); [right; now left | now left].
  - destruct He as (_ & _ & Ho). destruct (Hold Ho); auto.
  - destruct He as (_ & _ & Ho). destruct (Hold Ho); auto.
Qed.

Lemma handleGuess_consistent (row col : string) (ps : list Player)
    (onStrike : HomeState -> HomeState) (c : CellState) (h : HomeState) :
  cellConsistent toLowerCase c ->
  cellConsistent toLowerCase (handleGuess toLowerCase row col ps onStrike c h).1.
Proof.
  intros Hc.
  destruct (handleGuess_cases row col ps onStrike c h)
    as [->|[(found & _ & Hlow & ->)|(found & _ & Hlow & ->)]];
    [exact Hc | |]; unfold cellConsistent; cbn; auto.
Qed.

(** X8: in every cell on screen [player] and [result] are set together:
    either both are null, or the cell shows a player with an outcome,
    correct or wrong, and the text left in the cell is that player's name
    up to case. *)
Theorem cells_consistent (a : App) (pos : nat * nat) (c : CellState) :
  reachable toLowerCase a -> cells a !! pos = Some c ->
  cellConsistent toLowerCase c.
Proof.
  intros Ha. revert pos c. induction Ha as [|a e a' _ IH Hstep]; intros pos c Hc.
  - cbn in Hc. rewrite lookup_empty in Hc. discriminate.
  - destruct (step_cell_origin a e a' pos c Hstep Hc)
      as [->|[Hold|[(text & c0 & _ & Hc0 & Hp & ->)|(c0 & row & col & _ & Hc0 & _ & _ & _ & ->)]]].
    + reflexivity.
    + exact (IH pos c Hold).
    + specialize (IH pos c0 Hc0). unfold cellConsistent in *. cbn.
      rewrite Hp in *. exact IH.
    + apply handleGuess_consistent. exact (IH pos c0 Hc0).
Qed.

(** ** Wrong cards and strikes *)

Lemma wrong_size_reconcile (h : HomeState) (old : gmap (nat * nat) CellState) :
  base.size (filter (fun kc : nat * nat * CellState => result kc.2 = Some wrong)
                    (reconcile h old)) <=
  base.size (filter (fun kc : nat * nat * CellState => result kc.2 = Some wrong) old).
Proof.
  apply map_subseteq_size, map_subseteq_spec. intros k v.
  rewrite !map_lookup_filter_Some, lookup_reconcile.
  case_decide; [|intros [? _]; discriminate].
  intros [[= <-] Hw]. cbn in *. destruct (old !! k); [now split | discriminate].
Qed.

Lemma wrong_size_insert_le (m : gmap (nat * nat) CellState) (k : nat * nat)
    (c : CellState) :
  base.size (filter (fun kc : nat * nat * CellState => result kc.2 = Some wrong)
                    (<[k := c]> m)) <=
  S (base.size (filter (fun kc : nat * nat * CellState => result kc.2 = Some wrong) m)).
Proof.
  rewrite map_filter_insert. case_decide.
  - rewrite map_size_insert. destruct (filter _ m !! k); cbn; lia.
  - rewrite map_filter_delete.
    etransitivity; [apply map_subseteq_size, delete_subseteq | lia].
Qed.

Lemma wrong_size_insert_same (m : gmap (nat * nat) CellState) (k : nat * nat)
    (c c' : CellState) :
  m !! k = Some c ->
  result c' <> Some wrong \/ result c' = result c ->
  base.size (filter (fun kc : nat * nat * CellState => result kc.2 = Some wrong)
                    (<[k := c']> m)) <=
  base.size (filter (fun kc : nat * nat * CellState => result kc.2 = Some wrong) m).
Proof.
  intros Hk Hres. rewrite map_filter_insert. case_decide as Hw; cbn in Hw.
  - destruct Hres as [Hres|Hres]; [contradiction|].
    rewrite map_size_insert_Some; [lia|]. exists c.
    apply map_lookup_filter_Some. split; [exact Hk | cbn; congruence].
  - rewrite map_filter_delete. apply map_subseteq_size, delete_subseteq.
Qed.

(** X9: there are never more wrong cards on screen than strikes counted:
    every card shown as wrong has cost a strike, and relabelling or
    restarting never brings one back for free. *)
Theorem wrong_cards_bounded (a : App) :
  reachable toLowerCase a -> wrongCards a <= strikes (home a).
Proof.
  induction 1 as [|a e a' _ IH Hstep]; [reflexivity|].
  destruct (step_inv toLowerCase a e a' Hstep) as (old & Hcells & He).
  assert (Hle : wrongCards a' <=
                base.size (filter (fun kc : nat * nat * CellState =>
                                     result kc.2 = Some wrong) old)).
  { unfold wrongCards. rewrite Hcells. apply wrong_size_reconcile. }
  unfold wrongCards in IH.
  destruct e as [m| |i j text|i j|ps|cs]; cbn [stepped] in He.
  - destruct He as (_ & -> & ->). cbn. lia.
  - destruct He as (_ & Hh & _). unfold wrongCards.
    rewrite Hcells, reconcile_no_mode by now rewrite Hh.
    rewrite map_filter_empty, map_size_empty. lia.
  - destruct He as (c & Hc & _ & -> & ->).
    pose proof (wrong_size_insert_same (cells a) (i, j) c (setGuess text c) Hc
                  (or_intror eq_refl)). lia.
  - destruct He as (c & row & col & Hc & _ & _ & _ & Hh & ->). rewrite Hh.
    destruct (handleGuess_cases row col (players (home a)) handleStrike c (home a))
      as [Hr|[(found & _ & _ & Hr)|(found & _ & _ & Hr)]]; rewrite Hr in *; cbn [fst snd] in *.
    + rewrite (insert_id _ _ _ Hc) in Hle. lia.
    + assert (Hnw : result (mkCell (guess c) (Some correct) (Some found)) <> Some wrong)
        by discriminate.
      pose proof (wrong_size_insert_same (cells a) (i, j) c _ Hc (or_introl Hnw)). lia.
    + pose proof (wrong_size_insert_le (cells a) (i, j)
                    (mkCell (guess c) (Some wrong) (Some found))). cbn. lia.
  - destruct He as (_ & -> & ->). cbn. lia.
  - destruct He as (_ & -> & ->). cbn. lia.
Qed.

(** ** Which event writes what *)

Lemma step_home (a : App) (e : Event) (a' : App) :
  step toLowerCase a e = Some a' ->
  match e with
  | ChooseDifficulty m => mode (home a) = None /\ home a' = setMode (Some m) (home a)
  | ClickNewGame => home a' = resetGame (home a)
  | ChangeGuess _ _ _ => home a' = home a
  | ClickSubmit _ _ => home a' = home a \/ home a' = handleStrike (home a)
  | PlayersFetched ps => home a' = setPlayers ps (home a)
  | CategoriesFetched cs => home a' = setCategories cs (home a)
  end.
Proof.
  intros Hstep. destruct (step_inv toLowerCase a e a' Hstep) as (old & _ & He).
  destruct e as [m| |i j text|i j|ps|cs]; cbn [stepped] in He.
  - now destruct He as (? & ? & _).
  - now destruct He as (_ & ? & _).
  - now destruct He as (c & _ & _ & ? & _).
  - destruct He as (c & row & col & _ & _ & _ & _ & -> & _).
    apply (handleGuess_home toLowerCase).
  - now destruct He as (_ & ? & _).
  - now destruct He as (_ & ? & _).
Qed.

(** X10: each state variable of [Home] is written by its own events only:
    the players by a delivered players fetch, the categories by a delivered
    categories fetch, the difficulty by choosing one or by New Game, and
    the strike count by New Game (back to 0) or by a Submit (one more). *)
Theorem home_writes (a : App) (e : Event) (a' : App) :
  step toLowerCase a e = Some a' ->
  (players (home a') <> players (home a) -> exists ps, e = PlayersFetched ps) /\
  (categories (home a') <> categories (home a) -> exists cs, e = CategoriesFetched cs) /\
  (mode (home a') <> mode (home a) ->
   e = ClickNewGame \/ exists m, e = ChooseDifficulty m) /\
  (strikes (home a') <> strikes (home a) ->
   (e = ClickNewGame /\ strikes (home a') = 0) \/
   (exists i j, e = ClickSubmit i j /\ strikes (home a') = strikes (home a) + 1)).
Proof.
  intros Hstep. pose proof (step_home a e a' Hstep) as Hh.
  destruct e as [m| |i j text|i j|ps|cs]; cbn in Hh.
  - destruct Hh as [_ ->]. cbn. repeat split; intros; try congruence; eauto.
  - rewrite Hh. cbn. repeat split; intros; try congruence; eauto.
  - rewrite Hh. repeat split; intros; congruence.
  - destruct Hh as [-> | ->]; cbn; repeat split; intros; try congruence; eauto 6.
  - rewrite Hh. cbn. repeat split; intros; try congruence; eauto.
  - rewrite Hh. cbn. repeat split; intros; try congruence; eauto.
Qed.

(** X11: as long as New Game is not clicked the difficulty stays the one
    chosen, and the strike count never goes down and grows by at most the
    number of Submit clicks. *)
Theorem session_monotone (a : App) (es : list Event) (a' : App) :
  ClickNewGame ∉ es ->
  run toLowerCase a es = Some a' ->
  strikes (home a) <= strikes (home a') /\
  strikes (home a') <= strikes (home a) + countEvents isClickSubmit es /\
  (forall m, mode (home a) = Some m -> mode (home a') = Some m).
Proof.
  revert a. induction es as [|e es IH]; intros a Hnew; cbn [run].
  - intros [= <-]. unfold countEvents. cbn. split; [lia | split; [lia | auto]].
  - destruct (step toLowerCase a e) as [a1|] eqn:Hstep; [|discriminate]. intros Hrun.
    assert (Hne : e <> ClickNewGame) by (intros ->; apply Hnew; left).
    destruct (IH a1) as (Hlo & Hhi & Hmode); [intros Hin; apply Hnew; now right | exact Hrun |].
    pose proof (step_home a e a1 Hstep) as Hh. unfold countEvents in *.
    destruct e as [m| |i j text|i j|ps|cs]; cbn in Hh; cbn [List.filter isClickSubmit length];
      try congruence.
    + destruct Hh as [Hnone Hh]. rewrite Hh in *. cbn in *.
      split; [lia | split; [lia | intros; congruence]].
    + rewrite Hh in *. auto.
    + destruct Hh as [Hh|Hh]; rewrite Hh in *; cbn in *;
        (split; [lia | split; [lia | auto]]).
    + rewrite Hh in *. cbn in *. auto.
    + rewrite Hh in *. cbn in *. auto.
Qed.

(** ** Fetches *)

Lemma step_pending (a : App) (e : Event) (a' : App) :
  step toLowerCase a e = Some a' ->
  pendingPlayers a' + (if isPlayersFetched e then 1 else 0) =
    pendingPlayers a + (if isChooseDifficulty e then 1 else 0) /\
  pendingCategories a' + (if isCategoriesFetched e then 1 else 0) =
    pendingCategories a + (if isChooseDifficulty e then 1 else 0).
Proof.
  destruct e as [m| |i j text|i j|ps|cs]; cbn [step isPlayersFetched isCategoriesFetched
                                                 isChooseDifficulty].
  - destruct (render (home a)) eqn:Hr; try discriminate. intros [= <-].
    apply render_DifficultyScreen in Hr.
    destruct (pending_update_new_mode (setMode (Some m)) a m Hr eq_refl). lia.
  - destruct (render (home a)); try discriminate; intros [= <-];
      destruct (pending_update_same_mode resetGame a); (now left) || lia.
  - destruct (cells a !! (i, j)) as [c|]; [|discriminate].
    destruct (renderCell c); [|discriminate]. intros [= <-]. cbn. lia.
  - destruct (cells a !! (i, j)) as [c|]; [|discriminate].
    destruct (rows (home a) !! i) as [row|]; [|discriminate].
    destruct (cols (home a) !! j) as [col|]; [|discriminate].
    destruct (renderCell c); [|discriminate].
    destruct (handleGuess toLowerCase row col (players (home a)) handleStrike c (home a)).
    intros [= <-]. cbn. lia.
  - destruct (pendingPlayers a) as [|n] eqn:Hn; [discriminate|]. intros [= <-].
    destruct (pending_update_same_mode (setPlayers ps)
                (mkApp (home a) (cells a) n (pendingCategories a))) as [H1 H2];
      [now right|]. cbn in H1, H2. lia.
  - destruct (pendingCategories a) as [|n] eqn:Hn; [discriminate|]. intros [= <-].
    destruct (pending_update_same_mode (setCategories cs)
                (mkApp (home a) (cells a) (pendingPlayers a) n)) as [H1 H2];
      [now right|]. cbn in H1, H2. lia.
Qed.

(** X12: every choice of a difficulty starts exactly one fetch of the
    players and one of the categories, and nothing else starts or drops a
    fetch: over any run, the fetches still pending plus the ones delivered
    are the ones pending at the start plus the number of choices. *)
Theorem fetches_accounted (a : App) (es : list Event) (a' : App) :
  run toLowerCase a es = Some a' ->
  pendingPlayers a' + countEvents isPlayersFetched es =
    pendingPlayers a + countEvents isChooseDifficulty es /\
  pendingCategories a' + countEvents isCategoriesFetched es =
    pendingCategories a + countEvents isChooseDifficulty es.
Proof.
  revert a. induction es as [|e es IH]; intros a; cbn [run].
  - intros [= <-]. unfold countEvents. cbn. lia.
  - destruct (step toLowerCase a e) as [a1|] eqn:Hstep; [|discriminate]. intros Hrun.
    destruct (IH a1 Hrun) as [Hp Hc]. destruct (step_pending a e a1 Hstep) as [Hp1 Hc1].
    unfold countEvents in *. cbn [List.filter].
    destruct (isPlayersFetched e), (isCategoriesFetched e), (isChooseDifficulty e);
      cbn [length]; lia.
Qed.

(** ** Which controls are available *)

(** X13: at any time exactly one of the two controls of [Home] is on
    screen: a difficulty can be chosen exactly when none is set, and New
    Game can be clicked exactly when one is set; so from every state, also
    after the third strike, at most one click leads to the difficulty
    screen. *)
Theorem restart_available (a : App) :
  (forall m, is_Some (step toLowerCase a (ChooseDifficulty m)) <-> mode (home a) = None) /\
  (is_Some (step toLowerCase a ClickNewGame) <-> mode (home a) <> None) /\
  exists es a', length es <= 1 /\ run toLowerCase a es = Some a' /\
                render (home a') = DifficultyScreen.
Proof.
  split; [|split].
  - intros m. rewrite <- render_DifficultyScreen. cbn [step].
    destruct (render (home a)); split; intros H; eauto; try discriminate;
      destruct H as [? H]; discriminate.
  - rewrite <- render_DifficultyScreen. cbn [step].
    destruct (render (home a)); split; intros H; eauto; try discriminate; try congruence.
    destruct H as [? H]. discriminate.
  - destruct (mode (home a)) as [m|] eqn:Hm.
    + exists [ClickNewGame], (update resetGame a). split; [cbn; lia|]. split.
      * cbn [run]. rewrite step_ClickNewGame by congruence. reflexivity.
      * apply render_DifficultyScreen. now rewrite home_update.
    + exists [], a. split; [cbn; lia|]. split; [reflexivity|].
      now apply render_DifficultyScreen.
Qed.

(** X14: a cell takes a Submit click exactly while it is on screen and
    unresolved, and it is on screen exactly when a difficulty is chosen,
    fewer than three strikes are counted and its position lies within the
    row and column labels. *)
Theorem submit_enabled (a : App) (i j : nat) :
  reachable toLowerCase a ->
  (is_Some (step toLowerCase a (ClickSubmit i j)) <->
   exists c, cells a !! (i, j) = Some c /\ player c = None) /\
  (is_Some (cells a !! (i, j)) <->
   mode (home a) <> None /\ strikes (home a) < 3 /\
   i < length (rows (home a)) /\ j < length (cols (home a))).
Proof.
  intros Ha. apply reachable_invariant in Ha. split.
  - split.
    + intros [a' Hstep]. destruct (step_inv toLowerCase a _ a' Hstep) as (old & _ & He).
      cbn [stepped] in He. destruct He as (c & _ & _ & Hc & Hp & _). eauto.
    + intros (c & Hc & Hp).
      destruct (mounted_strikes a (i, j) c Ha Hc) as (_ & _ & Hi & Hj).
      apply lookup_lt_is_Some in Hi as [row Hrow], Hj as [col Hcol].
      cbn [fst snd] in *.
      rewrite (step_ClickSubmit toLowerCase a i j c row col Hc Hp Hrow Hcol). eauto.
  - destruct Ha as (Hwf & _). rewrite Hwf. apply elem_of_mounted.
Qed.

(** ** What a keystroke, a Submit and a delivered fetch leave alone *)

Lemma insert_same_dom (a : App) (k : nat * nat) (c c' : CellState) :
  invariant a -> cells a !! k = Some c ->
  forall pos, is_Some (<[k := c']> (cells a) !! pos) <-> pos ∈ mounted (home a).
Proof.
  intros [Hwf _] Hc pos. rewrite <- Hwf, lookup_insert_is_Some.
  destruct (decide (k = pos)) as [<-|Hne]; [|tauto].
  split; [intros _; eauto | now left].
Qed.

(** X15: typing in an unresolved cell replaces the text of that cell and
    touches nothing else, neither another cell nor the strikes nor the
    lists; and of two texts typed one after the other only the last
    remains. *)
Theorem typing_frame (a : App) (i j : nat) (c : CellState) (text : string) :
  reachable toLowerCase a ->
  cells a !! (i, j) = Some c ->
  player c = None ->
  step toLowerCase a (ChangeGuess i j text) =
    Some (mkApp (home a) (<[(i, j) := setGuess text c]> (cells a))
                (pendingPlayers a) (pendingCategories a)) /\
  forall text2,
    run toLowerCase a [ChangeGuess i j text; ChangeGuess i j text2] =
    step toLowerCase a (ChangeGuess i j text2).
Proof.
  intros Ha Hc Hp.
  assert (Hstep : forall (b : App) (d : CellState) (t : string),
             invariant b -> cells b !! (i, j) = Some d -> player d = None ->
             step toLowerCase b (ChangeGuess i j t) =
             Some (mkApp (home b) (<[(i, j) := setGuess t d]> (cells b))
                         (pendingPlayers b) (pendingCategories b))).
  { intros b d t Hb Hd Hpd. cbn [step]. rewrite Hd. unfold renderCell. rewrite Hpd.
    unfold commit. cbn [home cells pendingPlayers pendingCategories].
    now rewrite (reconcile_same_dom _ _ (insert_same_dom b (i, j) d _ Hb Hd)). }
  pose proof (reachable_invariant toLowerCase a Ha) as Hinv.
  split; [now apply Hstep|]. intros text2. cbn [run].
  rewrite (Hstep a c text Hinv Hc Hp), (Hstep a c text2 Hinv Hc Hp).
  rewrite (Hstep _ (setGuess text c) text2).
  - cbn [home cells pendingPlayers pendingCategories]. now rewrite insert_insert_eq.
  - apply (invariant_step toLowerCase a (ChangeGuess i j text)); [exact Hinv|].
    now apply Hstep.
  - cbn. apply lookup_insert_eq.
  - exact Hp.
Qed.

Lemma mounted_same_labels (h h' : HomeState) (pos : nat * nat) :
  mode h' = mode h -> categories h' = categories h ->
  strikes h < 3 -> strikes h' < 3 ->
  pos ∈ mounted h' <-> pos ∈ mounted h.
Proof.
  intros Hm Hc Hs Hs'. destruct pos as [i j]. rewrite !elem_of_mounted.
  unfold rows, cols, size. rewrite Hm, Hc. tauto.
Qed.

(** X16: a Submit click never writes the lists or the difficulty, and it
    leaves every other cell as it was, unless it is the third strike, which
    takes all cells off the screen. *)
Theorem submit_frame (a : App) (i j : nat) (a' : App) :
  reachable toLowerCase a ->
  step toLowerCase a (ClickSubmit i j) = Some a' ->
  players (home a') = players (home a) /\
  categories (home a') = categories (home a) /\
  mode (home a') = mode (home a) /\
  (strikes (home a') < 3 ->
   forall pos, pos <> (i, j) -> cells a' !! pos = cells a !! pos) /\
  (strikes (home a') = 3 -> cells a' = ∅).
Proof.
  intros Ha Hstep. apply reachable_invariant in Ha.
  pose proof (invariant_step toLowerCase a _ a' Ha Hstep) as Ha'.
  pose proof (step_home a _ a' Hstep) as Hh. cbn in Hh.
  destruct (step_inv toLowerCase a _ a' Hstep) as (old & Hcells & He).
  cbn [stepped] in He. destruct He as (c & row & col & Hc & _ & _ & _ & _ & ->).
  destruct (mounted_strikes a (i, j) c Ha Hc) as (_ & Hlt & _).
  assert (Hsame : players (home a') = players (home a) /\
                  categories (home a') = categories (home a) /\
                  mode (home a') = mode (home a))
    by (destruct Hh as [-> | ->]; now cbn).
  destruct Hsame as (Hps & Hcs & Hm).
  split; [exact Hps|]. split; [exact Hcs|]. split; [exact Hm|]. split.
  - intros Hlt' pos Hne. rewrite Hcells, lookup_reconcile.
    rewrite lookup_insert_ne by congruence.
    destruct Ha as (Hwf & _). case_decide as Hpos.
    + apply (mounted_same_labels (home a) (home a') pos Hm Hcs Hlt Hlt'), Hwf in Hpos
        as [d Hd]. now rewrite Hd.
    + destruct (cells a !! pos) eqn:Hd; [|reflexivity].
      exfalso. apply Hpos, (mounted_same_labels (home a) (home a') pos Hm Hcs Hlt Hlt'), Hwf.
      eauto.
  - intros H3. apply terminal_cells; [exact Ha' | lia].
Qed.

Lemma mounted_setPlayers (ps : list Player) (h : HomeState) :
  mounted (setPlayers ps h) = mounted h.
Proof.
  unfold mounted, render. cbn [setPlayers mode strikes].
  destruct (mode h); [|reflexivity].
  destruct (3 <=? strikes h)%nat; reflexivity.
Qed.

(** X17: a players list that arrives replaces the roster and nothing else:
    every cell, resolved or not, stays as it is, and so do the labels, the
    difficulty and the strikes. *)
Theorem players_fetched_frame (a : App) (ps : list Player) :
  reachable toLowerCase a ->
  0 < pendingPlayers a ->
  step toLowerCase a (PlayersFetched ps) =
    Some (mkApp (setPlayers ps (home a)) (cells a)
                (pendingPlayers a - 1) (pendingCategories a)).
Proof.
  intros Ha Hpending. apply reachable_invariant in Ha. cbn [step].
  destruct (pendingPlayers a) as [|n]; [lia|]. f_equal.
  unfold update, modeEffect. cbn [commit home cells mode setPlayers pendingPlayers
                                    pendingCategories].
  rewrite decide_True by reflexivity. unfold commit.
  cbn [home cells pendingPlayers pendingCategories].
  replace (S n - 1) with n by lia. f_equal.
  apply reconcile_same_dom. intros pos.
  rewrite mounted_setPlayers. apply Ha.
Qed.

(** X18: a categories list that arrives relabels the grid without touching
    what was entered: a cell whose position is still on screen keeps its
    text, player and outcome (a resolved card is not evaluated again under
    its new labels), a position that is new starts empty, and a position
    that is gone loses its state. *)
Theorem categories_fetched_keeps_cells (a : App) (cs : list string) (a' : App) :
  step toLowerCase a (CategoriesFetched cs) = Some a' ->
  home a' = setCategories cs (home a) /\
  (forall pos c, pos ∈ mounted (home a') -> cells a !! pos = Some c ->
                 cells a' !! pos = Some c) /\
  (forall pos, pos ∈ mounted (home a') -> cells a !! pos = None ->
               cells a' !! pos = Some initCell) /\
  (forall pos, pos ∉ mounted (home a') -> cells a' !! pos = None).
Proof.
  intros Hstep. destruct (step_inv toLowerCase a _ a' Hstep) as (old & Hcells & He).
  cbn [stepped] in He. destruct He as (_ & Hh & ->).
  split; [exact Hh|]. rewrite Hcells.
  split; [|split]; intros pos.
  - intros c Hpos Hc. now rewrite lookup_reconcile, decide_True, Hc.
  - intros Hpos Hc. now rewrite lookup_reconcile, decide_True, Hc.
  - intros Hpos. now rewrite lookup_reconcile, decide_False.
Qed.

End Play.

(** ** The further properties on the sample game *)

Lemma handleGuess_case_insensitive_witness :
  let r1 := handleGuess asciiLower "Played for OpTic" "Played on Hotel" [scump; simp]
              handleStrike (mkCell "SCUMP" None None) initHome in
  let r2 := handleGuess asciiLower "Played for OpTic" "Played on Hotel" [scump; simp]
              handleStrike (mkCell "scump" None None) initHome in
  player r1.1 = player r2.1 /\ result r1.1 = result r2.1 /\ r1.2 = r2.2.
Proof.
  apply (handleGuess_case_insensitive asciiLower "Played for OpTic" "Played on Hotel"
           [scump; simp] handleStrike (mkCell "SCUMP" None None)
           (mkCell "scump" None None) initHome); reflexivity.
Defined.

Lemma handleGuess_unique_name_witness :
  player (handleGuess asciiLower "Played for FaZe" "K/D over 1.1" [scump; simp]
            handleStrike (mkCell "SIMP" None None) initHome).1 = Some simp.
Proof.
  apply handleGuess_unique_name.
  - apply (bool_decide_unpack _). vm_compute. reflexivity.
  - right. left. reflexivity.
  - reflexivity.
Defined.

Lemma cells_consistent_witness :
  cellConsistent asciiLower (mkCell "SCUMP" (Some correct) (Some scump)).
Proof.
  apply (cells_consistent asciiLower
           (after (startEasy ++ [ChangeGuess 0 0 "SCUMP"; ClickSubmit 0 0])) (0, 0)).
  - apply reachable_after. vm_compute. reflexivity.
  - vm_compute. reflexivity.
Defined.

Lemma wrong_cards_bounded_witness :
  let a := after (startEasy ++ [ ChangeGuess 0 0 "simp"; ClickSubmit 0 0;
                                 ChangeGuess 1 1 "SCUMP"; ClickSubmit 1 1 ]) in
  wrongCards a <= strikes (home a).
Proof.
  intros a. apply (wrong_cards_bounded asciiLower a).
  apply reachable_after. vm_compute. reflexivity.
Defined.

Lemma home_writes_witness :
  let a := after (startEasy ++ [ChangeGuess 0 0 "simp"]) in
  let a' := after (startEasy ++ [ChangeGuess 0 0 "simp"; ClickSubmit 0 0]) in
  strikes (home a') = strikes (home a) + 1.
Proof.
  intros a a'.
  assert (Hstep : step asciiLower a (ClickSubmit 0 0) = Some a')
    by (vm_compute; reflexivity).
  destruct (home_writes asciiLower a (ClickSubmit 0 0) a' Hstep) as (_ & _ & _ & Hs).
  destruct Hs as [[Hnew _]|(i & j & _ & Hplus)];
    [vm_compute; discriminate | discriminate Hnew | exact Hplus].
Defined.

Lemma session_monotone_witness :
  let a := after startEasy in
  let es := [ ChangeGuess 0 0 "simp"; ClickSubmit 0 0;
              ChangeGuess 1 1 "SCUMP"; ClickSubmit 1 1 ] in
  let a' := after (startEasy ++ es) in
  strikes (home a) <= strikes (home a') /\
  strikes (home a') <= strikes (home a) + countEvents isClickSubmit es /\
  (forall m, mode (home a) = Some m -> mode (home a') = Some m).
Proof.
  intros a es a'. apply (session_monotone asciiLower a es a').
  - intros Hin. repeat (apply elem_of_cons in Hin as [Hin|Hin]; [discriminate Hin|]).
    now apply elem_of_nil in Hin.
  - vm_compute. reflexivity.
Defined.

Lemma fetches_accounted_witness :
  let es := [ ChooseDifficulty easy; PlayersFetched [scump; simp]; ClickNewGame;
              ChooseDifficulty hard ] in
  pendingPlayers (after es) + countEvents isPlayersFetched es =
    pendingPlayers initApp + countEvents isChooseDifficulty es /\
  pendingCategories (after es) + countEvents isCategoriesFetched es =
    pendingCategories initApp + countEvents isChooseDifficulty es.
Proof.
  intros es. apply (fetches_accounted asciiLower initApp es (after es)).
  vm_compute. reflexivity.
Defined.

Lemma submit_enabled_witness :
  let a := after (startEasy ++ [ChangeGuess 0 0 "SCUMP"; ClickSubmit 0 0]) in
  (is_Some (step asciiLower a (ClickSubmit 0 0)) <->
   exists c, cells a !! (0, 0) = Some c /\ player c = None) /\
  (is_Some (cells a !! (0, 0)) <->
   mode (home a) <> None /\ strikes (home a) < 3 /\
   0 < length (rows (home a)) /\ 0 < length (cols (home a))).
Proof.
  intros a. apply (submit_enabled asciiLower a 0 0).
  apply reachable_after. vm_compute. reflexivity.
Defined.

Lemma typing_frame_witness :
  let a := after startEasy in
  step asciiLower a (ChangeGuess 2 1 "Sim") =
    Some (mkApp (home a) (<[(2, 1) := setGuess "Sim" initCell]> (cells a))
                (pendingPlayers a) (pendingCategories a)) /\
  forall text2,
    run asciiLower a [ChangeGuess 2 1 "Sim"; ChangeGuess 2 1 text2] =
    step asciiLower a (ChangeGuess 2 1 text2).
Proof.
  intros a. apply (typing_frame asciiLower a 2 1 initCell "Sim").
  - apply reachable_after. vm_compute. reflexivity.
  - vm_compute. reflexivity.
  - reflexivity.
Defined.

Lemma submit_frame_witness :
  let a := after (startEasy ++ [ChangeGuess 0 0 "simp"; ChangeGuess 1 1 "Scu"]) in
  let a' := after (startEasy ++ [ChangeGuess 0 0 "simp"; ChangeGuess 1 1 "Scu";
                                 ClickSubmit 0 0]) in
  cells a' !! (1, 1) = cells a !! (1, 1).
Proof.
  intros a a'.
  assert (Ha : reachable asciiLower a) by (apply reachable_after; vm_compute; reflexivity).
  assert (Hstep : step asciiLower a (ClickSubmit 0 0) = Some a')
    by (vm_compute; reflexivity).
  destruct (submit_frame asciiLower a 0 0 a' Ha Hstep) as (_ & _ & _ & Hother & _).
  apply Hother; [vm_compute; lia | discriminate].
Defined.

Lemma players_fetched_frame_witness :
  let a := after [ChooseDifficulty easy; CategoriesFetched sampleCategories;
                  ChangeGuess 0 0 "scump"] in
  step asciiLower a (PlayersFetched [scump]) =
    Some (mkApp (setPlayers [scump] (home a)) (cells a)
                (pendingPlayers a - 1) (pendingCategories a)).
Proof.
  intros a. apply (players_fetched_frame asciiLower a [scump]).
  - apply reachable_after. vm_compute. reflexivity.
  - vm_compute. lia.
Defined.

Lemma categories_fetched_keeps_cells_witness :
  let a := after [ ChooseDifficulty easy; PlayersFetched [scump; simp];
                   CategoriesFetched sampleCategories; ClickNewGame;
                   ChooseDifficulty easy; ChangeGuess 0 0 "scump"; ClickSubmit 0 0 ] in
  let cs := ["Played for FaZe"; "a"; "b"; "c"; "d"; "e"] in
  let a' := after [ ChooseDifficulty easy; PlayersFetched [scump; simp];
                    CategoriesFetched sampleCategories; ClickNewGame;
                    ChooseDifficulty easy; ChangeGuess 0 0 "scump"; ClickSubmit 0 0;
                    CategoriesFetched cs ] in
  rows (home a') !! 0 = Some "Played for FaZe" /\
  cells a' !! (0, 0) = Some (mkCell "scump" (Some correct) (Some scump)).
Proof.
  intros a cs a'.
  assert (Hstep : step asciiLower a (CategoriesFetched cs) = Some a')
    by (vm_compute; reflexivity).
  destruct (categories_fetched_keeps_cells asciiLower a cs a' Hstep) as (_ & Hkeep & _).
  split; [vm_compute; reflexivity|].
  apply Hkeep; [|vm_compute; reflexivity].
  apply elem_of_mounted. split; [discriminate|]. vm_compute. lia.
Defined.
